(** * Subtitle segmentation and playback timing of the sermon video wizard

    A shallow embedding of the deterministic helpers of [src/index.tsx]:
    [createSmartSubtitles], [getCurrentSubtitle], the duration estimate of
    [generateClip], [writeString] and [createWavHeader], the assembly of
    the audio file, [handleVideoEnded] and the prompt fallback loop.

    - A JavaScript string is the list of its UTF-16 code units ([N]);
      [length] is the number of code units, as in the source.
    - A JavaScript number is an IEEE-754 binary64 value: Rocq's primitive
      [float], whose operations are specified by [SpecFloat].  Properties
      of the timing are proved on these floats, rounding included.
    - The arguments of [createWavHeader] are numbers, and [36 + dataLength]
      is a binary64 sum; a typed setter truncates its argument to an
      integer ([Z]) and wraps it modulo the width of the field.
    - The [DataView] methods are actions on a byte buffer that fail with
      [None] where the source throws a [RangeError]. *)

From Stdlib Require Import String Ascii.
From Stdlib Require Import List Bool Arith ZArith NArith Lia.
From Stdlib Require Import Floats.
From coqutil Require Import Byte Word.LittleEndianList.
Import ListNotations.

Set Warnings "-inexact-float".

(** ** JavaScript strings *)

Module JsString.

Definition code_unit := N.
Definition jsstring := list code_unit.

Definition of_string (s : string) : jsstring :=
  map N_of_ascii (list_ascii_of_string s).

Definition SPACE : code_unit := 32%N.

(** The class [\s] of an ECMAScript regular expression: WhiteSpace and
    LineTerminator code points.  [String.prototype.trim] strips the same
    set. *)
Definition is_whitespace (c : code_unit) : bool :=
  ((9 <=? c) && (c <=? 13) || (c =? 32) || (c =? 160) || (c =? 5760)
   || (8192 <=? c) && (c <=? 8202) || (c =? 8232) || (c =? 8233)
   || (c =? 8239) || (c =? 8287) || (c =? 12288) || (c =? 65279))%N.

(** [s.replace(/\s+/g, ' ')]: every maximal run of whitespace becomes one
    space.  [in_run] records that the previous unit belonged to a run
    whose replacement has been emitted already. *)
Fixpoint replace_ws_runs (in_run : bool) (s : jsstring) : jsstring :=
  match s with
  | [] => []
  | c :: r =>
      if is_whitespace c
      then if in_run then replace_ws_runs true r
           else SPACE :: replace_ws_runs true r
      else c :: replace_ws_runs false r
  end.

Fixpoint trim_start (s : jsstring) : jsstring :=
  match s with
  | [] => []
  | c :: r => if is_whitespace c then trim_start r else s
  end.

Definition trim_end (s : jsstring) : jsstring := rev (trim_start (rev s)).

(** [s.trim()] *)
Definition trim (s : jsstring) : jsstring := trim_end (trim_start s).

(** [s.split(' ')]: the empty string splits into one empty word. *)
Fixpoint split (s : jsstring) : list jsstring :=
  match s with
  | [] => [[]]
  | c :: r =>
      if (c =? SPACE)%N then [] :: split r
      else match split r with
           | w :: ws => (c :: w) :: ws
           | [] => [[c]]
           end
  end.

(** [ws.join(' ')] *)
Fixpoint join (ws : list jsstring) : jsstring :=
  match ws with
  | [] => []
  | [w] => w
  | w :: ws' => w ++ SPACE :: join ws'
  end.

(** [/[.!?]$/.test(word)]: without the [m] flag [$] is the end of input,
    so the test looks at the last code unit. *)
Definition endsWithPunctuation (word : jsstring) : bool :=
  match rev word with
  | [] => false
  | c :: _ => ((c =? 46) || (c =? 33) || (c =? 63))%N
  end.

End JsString.
Import JsString.

(** ** Greedy chunking (the [forEach] of [createSmartSubtitles]) *)

(** The two mutable locals of the loop: the closed [chunks] and the words
    of [currentChunk]. *)
Record chunk_state := mkState {
  chunks : list jsstring;
  currentChunk : list jsstring
}.

(** One iteration of the callback passed to [words.forEach]. *)
Definition chunk_step (st : chunk_state) (word : jsstring) : chunk_state :=
  let currentChunk := currentChunk st ++ [word] in
  let chunkString := join currentChunk in
  let endsWithPunctuation := endsWithPunctuation word in
  if ((25 <? length chunkString) || endsWithPunctuation)
     && (2 <=? length currentChunk)
  then mkState (chunks st ++ [chunkString]) []
  else if 6 <=? length currentChunk
  then mkState (chunks st ++ [chunkString]) []
  else mkState (chunks st) currentChunk.

(** The loop followed by the flush of a non-empty accumulator. *)
Definition make_chunks (words : list jsstring) : list jsstring :=
  let st := fold_left chunk_step words (mkState [] []) in
  if 0 <? length (currentChunk st)
  then chunks st ++ [join (currentChunk st)]
  else chunks st.

Definition cleanText (fullText : jsstring) : jsstring :=
  trim (replace_ws_runs false fullText).

(** ** JavaScript numbers *)

Open Scope float_scope.

(** An integer read as a number; [Uint63.of_Z] is exact below [2^63], far
    above any length the engine can produce. *)
Definition number_of_Z (z : Z) : float := of_uint63 (Uint63.of_Z z).

(** A length ([string.length], [array.length]) read as a number. *)
Definition number_of_nat (n : nat) : float := number_of_Z (Z.of_nat n).

(** [x >= y] *)
Definition geb (x y : float) : bool := y <=? x.

(** ToIntegerOrInfinity followed by the clamp of the typed setters: the
    number truncated towards zero, with [NaN] and the infinities read as
    [0]. *)
Definition truncate (x : float) : Z :=
  match Prim2SF x with
  | S754_finite s m e =>
      let magnitude :=
        match e with
        | Zneg k => (Zpos m / 2 ^ Zpos k)%Z
        | _ => (Zpos m * 2 ^ e)%Z
        end in
      if s then (- magnitude)%Z else magnitude
  | _ => 0%Z
  end.

(** [!x] on a number: [0], [-0] and [NaN] are falsy. *)
Definition falsy (x : float) : bool := (x =? 0) || is_nan x.

(** ** Subtitle segments and their timing *)

Record SubtitleSegment := mkSegment {
  text : jsstring;
  start : float;
  end_ : float
}.

(** The [chunks.map] of [createSmartSubtitles]; [currentTime] is the mutable
    local the callback reads and advances. *)
Fixpoint assign_times (totalChars : nat) (totalDuration currentTime : float)
    (chunks : list jsstring) : list SubtitleSegment :=
  match chunks with
  | [] => []
  | chunk :: rest =>
      let chunkLen := length chunk in
      let duration :=
        (number_of_nat chunkLen / number_of_nat totalChars) * totalDuration in
      mkSegment chunk currentTime (currentTime + duration)
        :: assign_times totalChars totalDuration (currentTime + duration) rest
  end.

Definition createSmartSubtitles (fullText : jsstring) (totalDuration : float)
    : list SubtitleSegment :=
  let cleanText := cleanText fullText in
  let words := split cleanText in
  let chunks := make_chunks words in
  let totalChars := length cleanText in
  assign_times totalChars totalDuration 0 chunks.

(** ** Active caption lookup *)

(** The component state [getCurrentSubtitle] closes over. *)
Record VideoData := mkVideoData {
  sequence : list jsstring;
  audioUrl : jsstring;
  subtitles : list SubtitleSegment
}.

(** The predicate handed to [Array.prototype.find]. *)
Definition active (currentTime : float) (seg : SubtitleSegment) : bool :=
  geb currentTime (start seg) && (currentTime <=? end_ seg).

Definition getCurrentSubtitle (videoData : option VideoData)
    (currentTime : float) : jsstring :=
  match videoData with
  | None => []
  | Some v =>
      if falsy currentTime then []
      else match find (active currentTime) (subtitles v) with
           | Some currentSeg => text currentSeg
           | None => []
           end
  end.

(** ** Audio duration estimate (in [generateClip]) *)

(** The first assignment, from the format constants. *)
Definition durationFromFormat (pcmLength : Z) : float :=
  let sampleRate := 24000 in
  let numChannels := 1 in
  let bytesPerSample := 2 in
  number_of_Z pcmLength / (sampleRate * numChannels * bytesPerSample).

(** The assignment that overwrites it, and the value [generateClip] uses. *)
Definition audioDurationSeconds (pcmLength : Z) : float :=
  number_of_Z pcmLength / 48000.

Close Scope float_scope.

(** ** The WAV header *)

Module DataView.

Definition buffer := list byte.

(** A [DataView] method: it updates the buffer or throws a [RangeError]
    ([None]). *)
Definition action := buffer -> option buffer.

Definition ret : action := fun buf => Some buf.

Definition seq (a b : action) : action :=
  fun buf => match a buf with
             | Some buf' => b buf'
             | None => None
             end.

Definition write_bytes (offset : nat) (bs : list byte) : action :=
  fun buf =>
    if offset + length bs <=? length buf
    then Some (firstn offset buf ++ bs ++ skipn (offset + length bs) buf)
    else None.

Definition read_bytes (offset n : nat) (buf : buffer) : option (list byte) :=
  if offset + n <=? length buf
  then Some (firstn n (skipn offset buf))
  else None.

Definition order (littleEndian : bool) (bs : list byte) : list byte :=
  if littleEndian then bs else rev bs.

Definition setUint8 (offset : nat) (value : Z) : action :=
  write_bytes offset (le_split 1 value).

Definition setUint16 (offset : nat) (value : Z) (littleEndian : bool) : action :=
  write_bytes offset (order littleEndian (le_split 2 value)).

Definition setUint32 (offset : nat) (value : Z) (littleEndian : bool) : action :=
  write_bytes offset (order littleEndian (le_split 4 value)).

Definition getUint16 (offset : nat) (littleEndian : bool) (buf : buffer) : option Z :=
  option_map (fun bs => le_combine (order littleEndian bs)) (read_bytes offset 2 buf).

Definition getUint32 (offset : nat) (littleEndian : bool) (buf : buffer) : option Z :=
  option_map (fun bs => le_combine (order littleEndian bs)) (read_bytes offset 4 buf).

(** [new ArrayBuffer(n)] *)
Definition ArrayBuffer (n : nat) : buffer := repeat Byte.x00 n.

End DataView.
Import DataView.

Declare Scope dv_scope.
Delimit Scope dv_scope with dv.
Notation "a ;; b" := (DataView.seq a b) (at level 61, right associativity) : dv_scope.

(** [writeString(view, offset, string)]: one [setUint8] per code unit. *)
Fixpoint writeString (offset : nat) (string : jsstring) : action :=
  match string with
  | [] => ret
  | c :: rest => (setUint8 offset (Z.of_N c) ;; writeString (S offset) rest)%dv
  end.

Definition createWavHeader
    (dataLength sampleRate numChannels bitsPerSample : float) : option buffer :=
  let header := ArrayBuffer 44 in
  (writeString 0 (of_string "RIFF") ;;
   setUint32 4 (truncate (36 + dataLength)%float) true ;;
   writeString 8 (of_string "WAVE") ;;
   writeString 12 (of_string "fmt ") ;;
   setUint32 16 16 true ;;
   setUint16 20 1 true ;;
   setUint16 22 (truncate numChannels) true ;;
   setUint32 24 (truncate sampleRate) true ;;
   setUint32 28 (truncate (sampleRate * numChannels * (bitsPerSample / 8))%float) true ;;
   setUint16 32 (truncate (numChannels * (bitsPerSample / 8))%float) true ;;
   setUint16 34 (truncate bitsPerSample) true ;;
   writeString 36 (of_string "data") ;;
   setUint32 40 (truncate dataLength) true)%dv header.

(** The call of [generateClip]: every format parameter at its default. *)
Definition createWavHeader_default (dataLength : float) : option buffer :=
  createWavHeader dataLength 24000%float 1%float 16%float.

(** ** Assembling the audio file *)

(** [target.set(source, offset)] of a typed array of bytes. *)
Definition set_bytes (source : list byte) (offset : nat) : action :=
  write_bytes offset source.

(** The assembly of the playable file in [generateClip]: the header, then
    the samples. *)
Definition wavBytes (pcmData : list byte) : option buffer :=
  match createWavHeader_default (number_of_nat (length pcmData)) with
  | None => None
  | Some wavHeader =>
      let wavBytes := ArrayBuffer (length wavHeader + length pcmData) in
      (set_bytes wavHeader 0 ;; set_bytes pcmData (length wavHeader))%dv wavBytes
  end.

(** ** Clip sequencing and storyboard prompts *)

(** [handleVideoEnded]: the clip index after the current clip has ended,
    from the index the handler sees. *)
Definition handleVideoEnded (videoData : option VideoData) (currentClipIndex : Z) : Z :=
  match videoData with
  | Some v =>
      if (currentClipIndex <? Z.of_nat (length (sequence v)) - 1)%Z
      then (currentClipIndex + 1)%Z
      else 0%Z
  | None => 0%Z
  end.

(** An entry of the parsed prompt array; reading past the end of a JS array
    gives [undefined]. *)
Definition prompt := option jsstring.
Definition undefined : prompt := None.

(** The fallback loop of [generateClip],
    [while (prompts.length < clipsNeeded) prompts.push(prompts[0])];
    [None] when the fuel runs out before the loop ends. *)
Fixpoint pad_prompts (fuel : nat) (clipsNeeded : Z) (prompts : list prompt)
    : option (list prompt) :=
  match fuel with
  | O => None
  | S fuel' =>
      if (Z.of_nat (length prompts) <? clipsNeeded)%Z
      then pad_prompts fuel' clipsNeeded (prompts ++ [nth 0 prompts undefined])
      else Some prompts
  end.

(** * Auxiliary definitions

    Predicates and reference definitions the statements below are written
    with. *)

(** ** Words and chunks *)

(** A word holds no space. *)
Definition no_space (w : jsstring) : Prop := ~ In SPACE w.

(** The number of words of a chunk, read back from its joined string. *)
Definition word_count (chunk : jsstring) : nat := length (split chunk).

(** The state of the loop after [words]. *)
Definition run (words : list jsstring) : chunk_state :=
  fold_left chunk_step words (mkState [] []).

(** The loop invariant: the closed chunks are the joins of groups of 2 to 6
    words, the accumulator holds at most 5, and together they are the words
    read so far, in order. *)
Definition chunk_inv (done : list jsstring) (st : chunk_state) : Prop :=
  exists gs,
    chunks st = map join gs /\
    concat gs ++ currentChunk st = done /\
    Forall (fun g => 2 <= length g <= 6) gs /\
    length (currentChunk st) <= 5.

(** Every whitespace unit is a space, and is followed by a unit that is not
    whitespace or by nothing: what [replace(/\s+/g, ' ')] leaves. *)
Fixpoint collapsed (s : jsstring) : Prop :=
  match s with
  | [] => True
  | c :: r =>
      (is_whitespace c = true ->
       c = SPACE /\ match r with [] => True | d :: _ => is_whitespace d = false end)
      /\ collapsed r
  end.

(** Every space is followed by a unit that is not a space. *)
Fixpoint single_spaced (s : jsstring) : Prop :=
  match s with
  | [] => True
  | c :: r =>
      (c = SPACE -> match r with [] => False | d :: _ => d <> SPACE end)
      /\ single_spaced r
  end.

(** The first unit, if any, is not whitespace. *)
Definition starts_solid (s : jsstring) : Prop :=
  match s with [] => True | c :: _ => is_whitespace c = false end.

(** The closing rule in the words of the specification. *)
Definition ends_sentence (word : jsstring) : bool :=
  match word with
  | [] => false
  | _ => let c := last word 0%N in ((c =? 46) || (c =? 33) || (c =? 63))%N
  end.

Definition natural_break (chunk : list jsstring) (word : jsstring) : bool :=
  (2 <=? length chunk) && ((25 <? length (join chunk)) || ends_sentence word).

Definition forced_break (chunk : list jsstring) : bool := length chunk =? 6.

Definition close_chunk (st : chunk_state) (chunk : list jsstring) : chunk_state :=
  mkState (chunks st ++ [join chunk]) [].

(** After the last word a non-empty accumulator is closed as the final
    chunk. *)
Definition flush (st : chunk_state) : list jsstring :=
  if 0 <? length (currentChunk st)
  then chunks (close_chunk st (currentChunk st))
  else chunks st.

Definition closing_rule (st : chunk_state) (word : jsstring) : chunk_state :=
  let chunk := currentChunk st ++ [word] in
  if natural_break chunk word then close_chunk st chunk
  else if forced_break chunk then close_chunk st chunk
  else mkState (chunks st) chunk.

(** ** Timelines *)

(** A timeline that starts at [t]: each segment starts where the previous
    one ended and does not end before it starts. *)
Fixpoint chained (t : float) (segments : list SubtitleSegment) : Prop :=
  match segments with
  | [] => True
  | seg :: rest =>
      start seg = t /\ (0 <=? start seg)%float = true /\
      (start seg <=? end_ seg)%float = true /\ chained (end_ seg) rest
  end.

(** The scenario of the specification. *)
Definition scenario : jsstring :=
  of_string ("Faith is not about everything turning out okay. "
             ++ "It's about trusting God even when it doesn't.").

(** [end] of the last segment, if there is one. *)
Definition last_end (segments : list SubtitleSegment) : option float :=
  option_map end_ (nth_error segments (length segments - 1)).

(** ** Lookup *)



(** ** Binary64 *)

(** The canonical exponent of binary64. *)
Definition fexp64 := fexp prec emax.

(** Zero, a positive finite number or [+Infinity]; never [NaN]. *)
Definition SFnonneg (x : spec_float) : bool :=
  match x with
  | S754_zero _ => true
  | S754_infinity s | S754_finite s _ _ => negb s
  | S754_nan => false
  end.

(** A positive finite number or [+Infinity]. *)
Definition SFpos (x : spec_float) : bool :=
  match x with
  | S754_infinity s | S754_finite s _ _ => negb s
  | _ => false
  end.

(** ** Caption hygiene *)

(** The last unit, if any, is not whitespace. *)
Definition ends_solid (s : jsstring) : Prop := starts_solid (rev s).

(** Whitespace occurs only as single spaces between other units. *)
Definition tidy (s : jsstring) : Prop :=
  s <> [] /\ starts_solid s /\ ends_solid s /\ single_spaced s /\
  Forall (fun c => is_whitespace c = true -> c = SPACE) s.

(** No unit of the word is whitespace. *)
Definition solid (w : jsstring) : Prop := Forall (fun c => is_whitespace c = false) w.

(** ** The shape of a chunk *)

(** The words of a chunk strictly between its first and its last. *)
Definition inner_words (g : list jsstring) : list jsstring := tl (removelast g).

(** No inner word ends a sentence. *)
Definition breaks_at_sentence_end (g : list jsstring) : Prop :=
  Forall (fun w => endsWithPunctuation w = false) (inner_words g).

(** From three words on, the chunk without its last word fits 25 units. *)
Definition narrow_before_last (g : list jsstring) : Prop :=
  3 <= length g -> length (join (removelast g)) <= 25.

(** What the loop keeps true of the accumulator. *)
Definition open_chunk_ok (cur : list jsstring) : Prop :=
  Forall (fun w => endsWithPunctuation w = false) (tl cur) /\
  (2 <= length cur -> length (join cur) <= 25).

Definition shape_inv (done : list jsstring) (st : chunk_state) : Prop :=
  exists gs,
    chunks st = map join gs /\
    concat gs ++ currentChunk st = done /\
    Forall (fun g => g <> []) gs /\
    Forall (fun g => breaks_at_sentence_end g /\ narrow_before_last g) gs /\
    open_chunk_ok (currentChunk st).

(** ** Integers as numbers *)

(** The binary64 form of an integer [0 < n < 2^53]: a mantissa of 53
    digits and the exponent that goes with it. *)
Definition canonical (n : Z) : spec_float :=
  S754_finite false (Z.to_pos (n * 2 ^ (53 - Zdigits2 n))) (Zdigits2 n - 53).

(** ** Header bytes *)

(** The bytes [writeString] stores for a string: the low byte of each code
    unit. *)
Definition low_bytes (s : jsstring) : list byte :=
  map (fun c => byte.of_Z (Z.of_N c)) s.

(** * Properties *)

(** ** Splitting and joining *)

Section SplitJoin.

Lemma split_nonempty s : split s <> [].
Proof.
  destruct s as [|c r]; cbn [split]; [discriminate|].
  destruct (c =? SPACE)%N; [discriminate|].
  destruct (split r); discriminate.
Qed.

Lemma join_cons w ws : ws <> [] -> join (w :: ws) = w ++ SPACE :: join ws.
Proof. destruct ws; [congruence | reflexivity]. Qed.

Lemma join_split s : join (split s) = s.
Proof.
  induction s as [|c r IH]; [reflexivity|]. cbn [split].
  destruct (N.eqb_spec c SPACE) as [->|Hc].
  - rewrite join_cons by apply split_nonempty. now rewrite IH.
  - destruct (split r) as [|w ws] eqn:E; [now apply split_nonempty in E|].
    destruct ws as [|w' ws].
    + cbn [join] in *. now rewrite IH.
    + rewrite join_cons in * by discriminate. cbn [app]. now rewrite IH.
Qed.

Lemma split_no_space s : Forall no_space (split s).
Proof.
  induction s as [|c r IH]; cbn [split].
  - constructor; [intros [] | constructor].
  - destruct (N.eqb_spec c SPACE) as [->|Hc].
    + constructor; [intros [] | exact IH].
    + destruct (split r) as [|w ws].
      * constructor; [|constructor]. intros [H|[]]. congruence.
      * inversion IH as [|? ? Hw Hws]; subst. constructor; [|exact Hws].
        intros [H|H]; [congruence | now apply Hw].
Qed.

Lemma split_word w : no_space w -> split w = [w].
Proof.
  induction w as [|c r IH]; intros Hw; [reflexivity|]. cbn [split].
  destruct (N.eqb_spec c SPACE) as [->|Hc]; [exfalso; apply Hw; now left|].
  rewrite IH; [reflexivity|]. intros H. apply Hw. now right.
Qed.

Lemma split_app_space w s :
  no_space w -> split (w ++ SPACE :: s) = w :: split s.
Proof.
  induction w as [|c r IH]; intros Hw; cbn [app split].
  - now rewrite N.eqb_refl.
  - destruct (N.eqb_spec c SPACE) as [->|Hc]; [exfalso; apply Hw; now left|].
    rewrite IH; [reflexivity|]. intros H. apply Hw. now right.
Qed.

Lemma split_join ws : ws <> [] -> Forall no_space ws -> split (join ws) = ws.
Proof.
  induction ws as [|w ws IH]; intros Hne Hws; [congruence|].
  inversion Hws as [|? ? Hw Hws']; subst.
  destruct ws as [|w' ws].
  - now apply split_word.
  - rewrite join_cons by discriminate.
    rewrite split_app_space by assumption.
    now rewrite IH.
Qed.

Lemma join_app a b :
  a <> [] -> b <> [] -> join (a ++ b) = join a ++ SPACE :: join b.
Proof.
  induction a as [|w a IH]; intros Ha Hb; [congruence|].
  destruct a as [|w' a].
  - cbn [app]. now rewrite join_cons.
  - change ((w :: w' :: a) ++ b) with (w :: (w' :: a) ++ b).
    rewrite join_cons by (destruct b; discriminate).
    rewrite IH by (assumption || discriminate).
    rewrite (join_cons w) by discriminate.
    now rewrite <- app_assoc.
Qed.

Lemma concat_nonempty (gs : list (list jsstring)) :
  gs <> [] -> Forall (fun g => g <> []) gs -> concat gs <> [].
Proof.
  destruct gs as [|g gs]; [congruence|]. intros _ H.
  inversion H as [|? ? Hg _]; subst. cbn [concat].
  destruct g; [congruence | discriminate].
Qed.

Lemma join_concat gs :
  Forall (fun g => g <> []) gs -> join (map join gs) = join (concat gs).
Proof.
  induction gs as [|g gs IH]; intros H; [reflexivity|].
  inversion H as [|? ? Hg Hgs]; subst. cbn [map concat].
  destruct gs as [|g' gs].
  - cbn [map concat join]. now rewrite app_nil_r.
  - rewrite join_cons by discriminate.
    rewrite join_app; [| assumption | apply concat_nonempty; [discriminate | assumption]].
    now rewrite IH.
Qed.

End SplitJoin.

(** ** The greedy pass *)

Section GreedyPass.

Lemma concat_snoc (gs : list (list jsstring)) g : concat (gs ++ [g]) = concat gs ++ g.
Proof. now rewrite concat_app; cbn [concat]; rewrite app_nil_r. Qed.

Lemma chunk_step_closes st word :
  let cur := currentChunk st ++ [word] in
  chunk_step st word = mkState (chunks st ++ [join cur]) [] /\ 2 <= length cur
  \/ chunk_step st word = mkState (chunks st ++ [join cur]) [] /\ 6 <= length cur
  \/ chunk_step st word = mkState (chunks st) cur /\ length cur < 6.
Proof.
  intros cur. unfold chunk_step. fold cur.
  destruct (((25 <? length (join cur)) || endsWithPunctuation word)
            && (2 <=? length cur)) eqn:E.
  - left. apply andb_prop in E. destruct E as [_ E]. apply Nat.leb_le in E. auto.
  - destruct (6 <=? length cur) eqn:F.
    + right; left. apply Nat.leb_le in F. auto.
    + right; right. apply Nat.leb_gt in F. auto.
Qed.

Lemma chunk_step_inv done st word :
  chunk_inv done st -> chunk_inv (done ++ [word]) (chunk_step st word).
Proof.
  intros (gs & Hc & Hd & Hg & Hl).
  assert (Hlen : length (currentChunk st ++ [word]) = S (length (currentChunk st)))
    by (rewrite length_app; cbn; lia).
  assert (Hclose : chunk_inv (done ++ [word])
            (mkState (chunks st ++ [join (currentChunk st ++ [word])]) [])
          \/ length (currentChunk st ++ [word]) < 2).
  { destruct (Nat.lt_ge_cases (length (currentChunk st ++ [word])) 2) as [|H2]; [now right|].
    left. exists (gs ++ [currentChunk st ++ [word]]). cbn [chunks currentChunk].
    repeat split.
    - now rewrite map_app, Hc.
    - now rewrite concat_snoc, app_nil_r, app_assoc, Hd.
    - apply Forall_app. split; [exact Hg|]. constructor; [lia | constructor].
    - cbn. lia. }
  destruct (chunk_step_closes st word) as [[-> H]|[[-> H]|[-> H]]].
  - destruct Hclose; [assumption | lia].
  - destruct Hclose; [assumption | lia].
  - exists gs. cbn [chunks currentChunk]. repeat split; try assumption.
    + now rewrite app_assoc, Hd.
    + lia.
Qed.

Lemma run_snoc words word : run (words ++ [word]) = chunk_step (run words) word.
Proof. unfold run. now rewrite fold_left_app. Qed.

Lemma run_inv words : chunk_inv words (run words).
Proof.
  induction words as [|word words IH] using rev_ind.
  - exists []. cbn. repeat split; [constructor | lia].
  - rewrite run_snoc. now apply chunk_step_inv.
Qed.

(** The chunks are the joins of a partition of the words into groups: every
    group but the last has 2 to 6 words, the last has 1 to 6. *)
Lemma make_chunks_groups words :
  exists init tail,
    make_chunks words = map join (init ++ tail) /\
    concat (init ++ tail) = words /\
    Forall (fun g => 2 <= length g <= 6) init /\
    (tail = [] \/ exists g, tail = [g] /\ 1 <= length g <= 5).
Proof.
  destruct (run_inv words) as (gs & Hc & Hd & Hg & Hl).
  unfold make_chunks. fold (run words).
  destruct (0 <? length (currentChunk (run words))) eqn:E.
  - apply Nat.ltb_lt in E. exists gs, [currentChunk (run words)]. repeat split.
    + now rewrite map_app, Hc.
    + now rewrite concat_snoc.
    + exact Hg.
    + right. eexists. split; [reflexivity | lia].
  - apply Nat.ltb_ge in E. exists gs, []. rewrite app_nil_r. repeat split.
    + exact Hc.
    + destruct (currentChunk (run words)); [now rewrite app_nil_r in Hd | cbn in E; lia].
    + exact Hg.
    + now left.
Qed.

Lemma groups_nonempty (init tail : list (list jsstring)) :
  Forall (fun g => 2 <= length g <= 6) init ->
  (tail = [] \/ exists g, tail = [g] /\ 1 <= length g <= 5) ->
  Forall (fun g => g <> []) (init ++ tail).
Proof.
  intros Hi Ht. apply Forall_app. split.
  - eapply Forall_impl; [|exact Hi]. intros [|] H; [cbn in H; lia | discriminate].
  - destruct Ht as [->|(g & -> & H)]; constructor; [|constructor].
    destruct g; [cbn in H; lia | discriminate].
Qed.

Lemma make_chunks_nonempty words : words <> [] -> make_chunks words <> [].
Proof.
  intros Hw. destruct (make_chunks_groups words) as (init & tail & -> & Hc & _).
  destruct (init ++ tail); [cbn in Hc; congruence | discriminate].
Qed.

Lemma join_make_chunks words : join (make_chunks words) = join words.
Proof.
  destruct (make_chunks_groups words) as (init & tail & -> & <- & Hi & Ht).
  apply join_concat. now apply groups_nonempty.
Qed.

End GreedyPass.

(** ** Normalized text *)

Section Normalisation.

Lemma replace_ws_runs_collapsed s : forall in_run,
  collapsed (replace_ws_runs in_run s) /\
  (in_run = true -> starts_solid (replace_ws_runs in_run s)).
Proof.
  induction s as [|c r IH]; intros b; [cbn; auto|].
  cbn [replace_ws_runs]. destruct (is_whitespace c) eqn:Hc.
  - destruct (IH true) as [A B]. destruct b; [auto|].
    split; [|discriminate]. cbn [collapsed]. split; [|exact A].
    intros _. split; [reflexivity|]. specialize (B eq_refl).
    destruct (replace_ws_runs true r); [exact I | exact B].
  - destruct (IH false) as [A _]. split; [|intros _; exact Hc].
    cbn [collapsed]. split; [|exact A]. congruence.
Qed.

Lemma trim_start_collapsed s :
  collapsed s -> collapsed (trim_start s) /\ starts_solid (trim_start s).
Proof.
  induction s as [|c r IH]; intros H; [cbn; auto|].
  cbn [trim_start]. destruct (is_whitespace c) eqn:Hc.
  - apply IH. apply H.
  - split; [exact H | exact Hc].
Qed.

Lemma trim_start_snoc l c :
  trim_start (l ++ [c]) =
  match trim_start l with
  | [] => if is_whitespace c then [] else [c]
  | t => t ++ [c]
  end.
Proof.
  induction l as [|a l IH]; cbn [app trim_start].
  - destruct (is_whitespace c); reflexivity.
  - destruct (is_whitespace a); [exact IH | reflexivity].
Qed.

Lemma trim_end_cons c r :
  trim_end (c :: r) =
  match trim_end r with
  | [] => if is_whitespace c then [] else [c]
  | t => c :: t
  end.
Proof.
  unfold trim_end. cbn [rev]. rewrite trim_start_snoc.
  destruct (trim_start (rev r)) as [|a t] eqn:E.
  - cbn [rev]. destruct (is_whitespace c); reflexivity.
  - rewrite rev_app_distr. cbn [rev app].
    destruct (rev t ++ [a]) eqn:F; [now destruct (rev t) | reflexivity].
Qed.

Lemma trim_end_head r x t : trim_end r = x :: t -> exists r', r = x :: r'.
Proof.
  destruct r as [|c r]; [discriminate|]. rewrite trim_end_cons.
  destruct (trim_end r); [destruct (is_whitespace c)|]; intros H;
    try discriminate; inversion H; subst; eauto.
Qed.

Lemma trim_end_single_spaced s :
  collapsed s -> single_spaced (trim_end s).
Proof.
  induction s as [|c r IH]; intros H; [exact I|]. destruct H as [Hc Hr].
  rewrite trim_end_cons. specialize (IH Hr).
  destruct (trim_end r) as [|x t] eqn:E.
  - destruct (is_whitespace c) eqn:W; [exact I|]. cbn. split; [|exact I].
    intros ->. discriminate.
  - cbn [single_spaced]. split; [|exact IH]. intros ->.
    destruct (trim_end_head _ _ _ E) as (r' & ->).
    destruct (Hc eq_refl) as [_ Hx]. intros ->. discriminate.
Qed.

Lemma trim_end_starts_solid s :
  starts_solid s -> starts_solid (trim_end s).
Proof.
  destruct s as [|c r]; [auto|]. cbn [starts_solid]. intros Hc.
  rewrite trim_end_cons. destruct (trim_end r); [rewrite Hc|]; exact Hc.
Qed.

Lemma cleanText_normal fullText :
  single_spaced (cleanText fullText) /\ starts_solid (cleanText fullText).
Proof.
  unfold cleanText, trim.
  destruct (replace_ws_runs_collapsed fullText false) as [A _].
  destruct (trim_start_collapsed _ A) as [B C].
  split; [now apply trim_end_single_spaced | now apply trim_end_starts_solid].
Qed.

Lemma split_single_spaced s :
  single_spaced s ->
  Forall (fun w => w <> []) (tl (split s)) /\
  (forall c r, s = c :: r -> c <> SPACE -> hd [] (split s) <> []).
Proof.
  induction s as [|c r IH]; intros H.
  - split; [constructor | discriminate].
  - destruct H as [Hc Hr]. destruct (IH Hr) as [A B]. cbn [split].
    destruct (N.eqb_spec c SPACE) as [->|Hne].
    + split; [|intros ? ? [= <- _] H; congruence].
      cbn [tl]. specialize (Hc eq_refl). destruct r as [|d r]; [destruct Hc|].
      specialize (B d r eq_refl Hc).
      destruct (split (d :: r)) as [|w ws]; [constructor|].
      constructor; [exact B | exact A].
    + destruct (split r) as [|w ws]; cbn [tl hd] in *.
      * split; [constructor | discriminate].
      * split; [exact A | discriminate].
Qed.

(** The words of a non-empty normalized text are non-empty. *)
Lemma words_nonempty fullText :
  cleanText fullText <> [] ->
  Forall (fun w => w <> []) (split (cleanText fullText)).
Proof.
  intros Hne. destruct (cleanText_normal fullText) as [A B].
  destruct (split_single_spaced _ A) as [C D].
  destruct (cleanText fullText) as [|c r] eqn:E; [congruence|].
  assert (Hc : c <> SPACE) by (intros ->; cbn in B; discriminate).
  specialize (D c r eq_refl Hc).
  pose proof (split_nonempty (c :: r)).
  destruct (split (c :: r)) as [|w ws]; [congruence|].
  constructor; [exact D | exact C].
Qed.

End Normalisation.

(** ** The segmenter: texts *)

Section SegmenterTexts.

Lemma texts_assign_times totalChars totalDuration cs : forall currentTime,
  map text (assign_times totalChars totalDuration currentTime cs) = cs.
Proof.
  induction cs as [|c cs IH]; intros t; cbn [assign_times map]; [reflexivity|].
  now rewrite IH.
Qed.

Lemma texts_createSmartSubtitles fullText totalDuration :
  map text (createSmartSubtitles fullText totalDuration)
  = make_chunks (split (cleanText fullText)).
Proof. apply texts_assign_times. Qed.

Lemma replace_ws_runs_in_run s :
  forallb is_whitespace s = true -> replace_ws_runs true s = [].
Proof.
  induction s as [|c r IH]; [reflexivity|]. cbn [forallb replace_ws_runs].
  intros H. apply andb_prop in H. destruct H as [-> H]. now apply IH.
Qed.

Lemma cleanText_blank fullText :
  forallb is_whitespace fullText = true -> cleanText fullText = [].
Proof.
  unfold cleanText. destruct fullText as [|c r]; [reflexivity|].
  cbn [forallb replace_ws_runs]. intros H. apply andb_prop in H.
  destruct H as [-> H]. now rewrite replace_ws_runs_in_run.
Qed.

(** C4: the segment texts, joined in order with single spaces, are the
    whitespace-normalized input text exactly; nothing is dropped, added or
    reordered. *)
Theorem text_preservation fullText totalDuration :
  join (map text (createSmartSubtitles fullText totalDuration))
  = cleanText fullText.
Proof.
  rewrite texts_createSmartSubtitles, join_make_chunks. apply join_split.
Qed.

Lemma Forall_concat_inv {A} (P : A -> Prop) (gs : list (list A)) :
  Forall P (concat gs) -> Forall (Forall P) gs.
Proof.
  induction gs as [|g gs IH]; intros H; constructor.
  - cbn [concat] in H. now apply Forall_app in H.
  - apply IH. cbn [concat] in H. now apply Forall_app in H.
Qed.

Lemma word_count_join g : g <> [] -> Forall no_space g -> word_count (join g) = length g.
Proof. intros. unfold word_count. now rewrite split_join. Qed.

(** C6: every chunk has at most 6 words, and every chunk but the last has
    at least 2. *)
Theorem chunk_bounds fullText totalDuration :
  let segments := createSmartSubtitles fullText totalDuration in
  (forall seg, In seg segments -> word_count (text seg) <= 6) /\
  (forall i seg, nth_error segments i = Some seg -> S i < length segments ->
                 2 <= word_count (text seg)).
Proof.
  intros segments.
  pose proof (texts_createSmartSubtitles fullText totalDuration) as Ht.
  fold segments in Ht.
  destruct (make_chunks_groups (split (cleanText fullText)))
    as (init & tail & Hm & Hc & Hi & Htl).
  rewrite Hm in Ht.
  pose proof (groups_nonempty _ _ Hi Htl) as Hne.
  assert (Hns : Forall (Forall no_space) (init ++ tail)).
  { apply Forall_concat_inv. rewrite Hc. apply split_no_space. }
  assert (Hwc : forall g, In g (init ++ tail) -> word_count (join g) = length g).
  { intros g Hg. rewrite Forall_forall in Hne, Hns. apply word_count_join; auto. }
  split.
  - intros seg Hseg. apply (in_map text) in Hseg. rewrite Ht in Hseg.
    apply in_map_iff in Hseg. destruct Hseg as (g & <- & Hg).
    rewrite Hwc by assumption. apply in_app_or in Hg. destruct Hg as [Hg|Hg].
    + rewrite Forall_forall in Hi. apply Hi in Hg. lia.
    + destruct Htl as [->|(g' & -> & H)]; [destruct Hg|].
      destruct Hg as [<-|[]]. lia.
  - intros i seg Hnth Hi'.
    assert (Hlen : length segments = length (init ++ tail)).
    { rewrite <- (length_map text), Ht. apply length_map. }
    assert (Hseg : nth_error (map join (init ++ tail)) i = Some (text seg)).
    { rewrite <- Ht. now apply map_nth_error. }
    rewrite nth_error_map in Hseg.
    destruct (nth_error (init ++ tail) i) as [g|] eqn:Hg; [|discriminate].
    injection Hseg as <-.
    rewrite Hwc by (eapply nth_error_In; eassumption).
    assert (Hii : i < length init).
    { rewrite Hlen, length_app in Hi'.
      destruct Htl as [->|(g' & -> & _)]; cbn [length] in Hi'; lia. }
    rewrite nth_error_app1 in Hg by assumption.
    apply nth_error_In in Hg. rewrite Forall_forall in Hi. apply Hi in Hg. lia.
Qed.

(** C10: the segmenter never returns an empty list; for the empty string and
    for whitespace-only input it returns exactly one segment, whose text is
    the empty string. *)
Theorem at_least_one_segment fullText totalDuration :
  createSmartSubtitles fullText totalDuration <> [] /\
  (forallb is_whitespace fullText = true ->
   exists seg, createSmartSubtitles fullText totalDuration = [seg] /\ text seg = []).
Proof.
  split.
  - intros H. apply (f_equal (map text)) in H.
    rewrite texts_createSmartSubtitles in H.
    now apply make_chunks_nonempty in H; [|apply split_nonempty].
  - intros Hb. unfold createSmartSubtitles. rewrite (cleanText_blank _ Hb).
    cbn. eexists. split; reflexivity.
Qed.

End SegmenterTexts.

(** ** The closing rule *)

Section ClosingRule.

Lemma endsWithPunctuation_last word : endsWithPunctuation word = ends_sentence word.
Proof.
  induction word as [|c r _] using rev_ind; [reflexivity|].
  unfold endsWithPunctuation, ends_sentence. rewrite rev_app_distr, last_last.
  cbn [rev app]. destruct r; reflexivity.
Qed.

Lemma chunk_step_closing_rule st word :
  length (currentChunk st) <= 5 -> chunk_step st word = closing_rule st word.
Proof.
  intros H. unfold chunk_step, closing_rule, natural_break, forced_break, close_chunk.
  rewrite endsWithPunctuation_last, andb_comm.
  assert (Hlen : length (currentChunk st ++ [word]) <= 6)
    by (rewrite length_app; cbn; lia).
  destruct ((2 <=? length (currentChunk st ++ [word])) &&
            ((25 <? length (join (currentChunk st ++ [word]))) || ends_sentence word));
    [reflexivity|].
  destruct (Nat.leb_spec 6 (length (currentChunk st ++ [word])));
    destruct (Nat.eqb_spec (length (currentChunk st ++ [word])) 6); try reflexivity; lia.
Qed.

(** C7: the loop of the segmenter closes chunks by exactly this rule: after
    appending a word, close on a natural break (at least 2 words, and more
    than 25 characters or a word ending in [.], [!] or [?]); otherwise close
    on reaching 6 words; closing appends the joined chunk to the output and
    empties the accumulator.  The loop run by the rule reaches the same
    state on every word list, and the segment texts are what the rule
    leaves, followed by a non-empty accumulator. *)
Theorem closing_rule_exact :
  (forall words,
     fold_left chunk_step words (mkState [] [])
     = fold_left closing_rule words (mkState [] [])) /\
  (forall fullText totalDuration,
     map text (createSmartSubtitles fullText totalDuration)
     = flush (fold_left closing_rule (split (cleanText fullText)) (mkState [] []))).
Proof.
  assert (H : forall words,
             fold_left chunk_step words (mkState [] [])
             = fold_left closing_rule words (mkState [] [])).
  { induction words as [|word words IH] using rev_ind; [reflexivity|].
    rewrite !fold_left_app. cbn [fold_left]. rewrite <- IH.
    apply chunk_step_closing_rule.
    destruct (run_inv words) as (gs & _ & _ & _ & Hlen). exact Hlen. }
  split; [exact H|]. intros fullText totalDuration.
  rewrite texts_createSmartSubtitles, <- H. reflexivity.
Qed.

End ClosingRule.

(** ** Lengths of the text and of the chunks *)

Section ChunkLengths.

Lemma length_replace_ws_runs s : forall in_run,
  length (replace_ws_runs in_run s) <= length s.
Proof.
  induction s as [|c r IH]; intros b; [reflexivity|]. cbn [replace_ws_runs].
  pose proof (IH true). pose proof (IH false).
  destruct (is_whitespace c); [destruct b|]; cbn [length]; lia.
Qed.

Lemma length_trim_start s : length (trim_start s) <= length s.
Proof.
  induction s as [|c r IH]; [reflexivity|]. cbn [trim_start].
  destruct (is_whitespace c); cbn [length]; lia.
Qed.

Lemma length_cleanText fullText : length (cleanText fullText) <= length fullText.
Proof.
  unfold cleanText, trim, trim_end. rewrite length_rev.
  etransitivity; [apply length_trim_start|]. rewrite length_rev.
  etransitivity; [apply length_trim_start|]. apply length_replace_ws_runs.
Qed.

Lemma length_join_ge w ws : In w ws -> length w <= length (join ws).
Proof.
  induction ws as [|v ws IH]; intros H; [destruct H|].
  destruct ws as [|v' ws].
  - destruct H as [->|[]]. reflexivity.
  - rewrite join_cons by discriminate. rewrite length_app. cbn [length].
    destruct H as [->|H]; [lia|]. specialize (IH H). lia.
Qed.

Lemma join_nonempty g :
  g <> [] -> Forall (fun w => w <> []) g -> join g <> [].
Proof.
  destruct g as [|w g]; [congruence|]. intros _ H.
  inversion H as [|? ? Hw _]; subst.
  destruct g; [exact Hw|]. rewrite join_cons by discriminate.
  destruct w; [congruence | discriminate].
Qed.

(** Every chunk of a non-empty normalized text is non-empty and no longer
    than the text. *)
Lemma chunk_lengths fullText chunk :
  cleanText fullText <> [] ->
  In chunk (make_chunks (split (cleanText fullText))) ->
  1 <= length chunk <= length (cleanText fullText).
Proof.
  intros Hne Hin. split.
  - destruct (make_chunks_groups (split (cleanText fullText)))
      as (init & tail & Hm & Hc & Hi & Ht).
    rewrite Hm in Hin. apply in_map_iff in Hin. destruct Hin as (g & <- & Hg).
    pose proof (groups_nonempty _ _ Hi Ht) as Hgs.
    pose proof (words_nonempty fullText Hne) as Hw. rewrite <- Hc in Hw.
    apply Forall_concat_inv in Hw. rewrite Forall_forall in Hgs, Hw.
    pose proof (join_nonempty g (Hgs g Hg) (Hw g Hg)).
    destruct (join g); [congruence | cbn; lia].
  - rewrite <- (join_split (cleanText fullText)).
    rewrite <- join_make_chunks. now apply length_join_ge.
Qed.

Lemma length_join ws :
  length (join ws) = list_sum (map (@length _) ws) + (length ws - 1).
Proof.
  induction ws as [|w ws IH]; [reflexivity|]. destruct ws as [|w' ws].
  - cbn. lia.
  - rewrite join_cons by discriminate. rewrite length_app. cbn [length].
    rewrite IH. cbn [map list_sum fold_right length]. lia.
Qed.

(** The chunk lengths add up to the length of the normalized text less one
    for every chunk boundary: the separating spaces belong to no chunk. *)
Lemma chunk_lengths_total fullText :
  let cs := make_chunks (split (cleanText fullText)) in
  list_sum (map (@length _) cs) + (length cs - 1) = length (cleanText fullText).
Proof.
  intros cs. rewrite <- length_join. unfold cs.
  now rewrite join_make_chunks, join_split.
Qed.

End ChunkLengths.

(** ** Binary64 arithmetic

    Facts about rounding, derived from the reference implementation
    [SpecFloat] that the primitive operations are specified by. *)

Ltac pow2_pos := apply Z.pow_pos_nonneg; lia.

Section Rounding.
Local Open Scope Z_scope.

(** [digits2_pos p] is the number of binary digits of [p]. *)
Lemma digits2_bounds p :
  2 ^ (Zpos (digits2_pos p) - 1) <= Zpos p < 2 ^ Zpos (digits2_pos p).
Proof.
  induction p; cbn [digits2_pos].
  1, 2: rewrite Pos2Z.inj_succ;
    replace (Z.succ (Zpos (digits2_pos p)) - 1)
      with (Z.succ (Zpos (digits2_pos p) - 1)) by lia;
    rewrite !Z.pow_succ_r by lia; lia.
  simpl. lia.
Qed.

Lemma shr_1_m r : 0 <= shr_m r -> shr_m (shr_1 r) = shr_m r / 2.
Proof.
  destruct r as [m rb sb]; simpl. intros H.
  destruct m as [|[p|p|]|p]; cbn [shr_m]; try lia; try reflexivity.
  - apply Z.div_unique with 1; lia.
  - apply Z.div_unique with 0; lia.
Qed.

Lemma pow2_xO p : 2 ^ Zpos p~0 = 2 ^ Zpos p * 2 ^ Zpos p.
Proof. rewrite <- Z.pow_add_r by lia. f_equal. lia. Qed.

Lemma pow2_xI p : 2 ^ Zpos p~1 = 2 * (2 ^ Zpos p * 2 ^ Zpos p).
Proof.
  rewrite <- Z.pow_add_r, <- Z.pow_succ_r by lia. f_equal. lia.
Qed.

(** [p] one-bit right shifts divide the mantissa by [2^p]. *)
Lemma iter_shr_1_m p : forall r, 0 <= shr_m r ->
  shr_m (iter_pos shr_1 p r) = shr_m r / 2 ^ Zpos p.
Proof.
  assert (P2 : forall q, 0 < 2 ^ Zpos q) by (intros; pow2_pos).
  induction p; intros r H; cbn [iter_pos].
  - assert (H1 : 0 <= shr_m (shr_1 r)) by (rewrite shr_1_m by lia; apply Z.div_pos; lia).
    assert (H2 : 0 <= shr_m (iter_pos shr_1 p (shr_1 r)))
      by (rewrite IHp by lia; apply Z.div_pos; [lia | apply P2]).
    rewrite IHp, IHp, shr_1_m by assumption.
    pose proof (P2 p).
    rewrite !Z.div_div by lia. now rewrite pow2_xI.
  - assert (H2 : 0 <= shr_m (iter_pos shr_1 p r))
      by (rewrite IHp by lia; apply Z.div_pos; [lia | apply P2]).
    rewrite IHp, IHp by assumption.
    pose proof (P2 p).
    rewrite !Z.div_div by lia. now rewrite pow2_xO.
  - rewrite shr_1_m by lia. reflexivity.
Qed.

Lemma Zdigits2_bounds m : 0 < m ->
  2 ^ (Zdigits2 m - 1) <= m < 2 ^ Zdigits2 m.
Proof. destruct m; try lia. intros _. apply digits2_bounds. Qed.

Lemma Zdigits2_nonneg m : 0 <= m -> 0 <= Zdigits2 m.
Proof. destruct m; simpl; lia. Qed.

Lemma shr_m_of_loc m l : shr_m (shr_record_of_loc m l) = m.
Proof. destruct l as [|[]]; reflexivity. Qed.

Lemma shr_spec r e n : 0 <= shr_m r ->
  shr_m (fst (shr r e n)) = shr_m r / 2 ^ Z.max 0 n /\
  snd (shr r e n) = e + Z.max 0 n.
Proof.
  intros H. destruct n; cbn [shr fst snd].
  - rewrite Z.div_1_r. split; lia.
  - rewrite iter_shr_1_m by assumption. split; f_equal; lia.
  - rewrite Z.div_1_r. split; lia.
Qed.

Lemma round_nearest_even_bounds m l :
  m <= round_nearest_even m l <= m + 1.
Proof. destruct l as [|[]]; simpl; try lia. destruct (Z.even m); lia. Qed.

(** What [binary_round_aux] does to a non-negative mantissa. *)
Lemma binary_round_aux_spec m e l e1 m1 : 0 <= m ->
  e1 = e + Z.max 0 (fexp64 (Zdigits2 m + e) - e) ->
  m1 = m / 2 ^ (e1 - e) ->
  exists m2 e2 m3, m1 <= m2 <= m1 + 1 /\
    e2 = e1 + Z.max 0 (fexp64 (Zdigits2 m2 + e1) - e1) /\
    m3 = m2 / 2 ^ (e2 - e1) /\
    0 <= m3 /\
    binary_round_aux prec emax false m e l =
      match m3 with
      | Zpos p => if e2 <=? emax - prec then S754_finite false p e2
                  else S754_infinity false
      | _ => S754_zero false
      end.
Proof.
  intros Hm He1 Hm1.
  unfold binary_round_aux, shr_fexp. fold fexp64.
  destruct (shr_spec (shr_record_of_loc m l) e (fexp64 (Zdigits2 m + e) - e)) as [A B].
  { rewrite shr_m_of_loc. exact Hm. }
  rewrite shr_m_of_loc in A.
  destruct (shr (shr_record_of_loc m l) e (fexp64 (Zdigits2 m + e) - e)) as [r1 e1'].
  cbn [fst snd] in A, B. rewrite <- He1 in B. subst e1'.
  replace (Z.max 0 (fexp64 (Zdigits2 m + e) - e)) with (e1 - e) in A by lia.
  rewrite <- Hm1 in A.
  assert (H0m1 : 0 <= m1).
  { rewrite Hm1. apply Z.div_pos; [lia | pow2_pos]. }
  pose proof (round_nearest_even_bounds (shr_m r1) (loc_of_shr_record r1)) as Hr.
  remember (round_nearest_even (shr_m r1) (loc_of_shr_record r1)) as m2 eqn:Em2.
  rewrite A in Hr.
  destruct (shr_spec (shr_record_of_loc m2 loc_Exact) e1 (fexp64 (Zdigits2 m2 + e1) - e1)) as [C D].
  { rewrite shr_m_of_loc. lia. }
  rewrite shr_m_of_loc in C.
  destruct (shr (shr_record_of_loc m2 loc_Exact) e1 (fexp64 (Zdigits2 m2 + e1) - e1)) as [r2 e2'].
  cbn [fst snd] in C, D.
  exists m2, e2', (shr_m r2).
  split; [exact Hr|]. split; [exact D|]. split.
  { rewrite C, D. f_equal. f_equal. lia. }
  assert (0 <= shr_m r2) by (rewrite C; apply Z.div_pos; [lia | pow2_pos]).
  split; [assumption|].
  destruct (shr_m r2); try reflexivity. lia.
Qed.

Lemma iter_xO_spec m d : Zpos (Pos.iter xO m d) = Zpos m * 2 ^ Zpos d.
Proof.
  induction d using Pos.peano_ind.
  - simpl. lia.
  - rewrite Pos.iter_succ, Pos2Z.inj_xO, IHd, Pos2Z.inj_succ, Z.pow_succ_r by lia. lia.
Qed.

Lemma shl_align_spec m e e' :
  Zpos (fst (shl_align m e e')) = Zpos m * 2 ^ Z.max 0 (e - e') /\
  snd (shl_align m e e') = Z.min e e'.
Proof.
  unfold shl_align. destruct (e' - e) eqn:E; cbn [fst snd].
  - replace (Z.max 0 (e - e')) with 0 by lia. split; lia.
  - replace (Z.max 0 (e - e')) with 0 by lia. split; lia.
  - rewrite iter_xO_spec. replace (Z.max 0 (e - e')) with (Zpos p) by lia. split; lia.
Qed.

Lemma Zdigits2_unique m d : 0 < m -> 2 ^ (d - 1) <= m < 2 ^ d -> Zdigits2 m = d.
Proof.
  intros Hm [A B]. pose proof (Zdigits2_bounds m Hm) as [C D].
  pose proof (Zdigits2_nonneg m ltac:(lia)).
  assert (0 <= d).
  { destruct (Z.ltb_spec d 0); [|lia]. rewrite Z.pow_neg_r in B by lia. lia. }
  assert (d - 1 < Zdigits2 m) by (apply (Z.pow_lt_mono_r_iff 2); lia).
  assert (Zdigits2 m - 1 < d) by (apply (Z.pow_lt_mono_r_iff 2); lia).
  lia.
Qed.

Lemma Zdigits2_shl m k : 0 < m -> 0 <= k -> Zdigits2 (m * 2 ^ k) = Zdigits2 m + k.
Proof.
  intros Hm Hk. pose proof (Zdigits2_bounds m Hm) as [C D].
  assert (0 < 2 ^ k) by pow2_pos.
  assert (0 < Zdigits2 m).
  { destruct m; simpl; lia. }
  apply Zdigits2_unique; [nia|].
  replace (Zdigits2 m + k - 1) with ((Zdigits2 m - 1) + k) by lia.
  rewrite !Z.pow_add_r by lia. nia.
Qed.

Lemma Zdigits2_pos m : 0 < m -> 0 < Zdigits2 m.
Proof. destruct m; simpl; lia. Qed.

(** Shifting right by fewer places than there are digits leaves a positive
    mantissa. *)
Lemma shr_positive m k : 0 < m -> 0 <= k <= Zdigits2 m - 1 -> 1 <= m / 2 ^ k.
Proof.
  intros Hm Hk. pose proof (Zdigits2_bounds m Hm) as [C _].
  assert (0 < 2 ^ k) by pow2_pos.
  apply Z.div_le_lower_bound; [lia|].
  assert (2 ^ k <= 2 ^ (Zdigits2 m - 1)) by (apply Z.pow_le_mono_r; lia).
  lia.
Qed.

Lemma fexp64_eq x : fexp64 x = Z.max (x - 53) (-1074).
Proof. reflexivity. Qed.

Lemma second_shift_positive m2 e1 e2 m3 :
  1 <= m2 -> -1074 <= e1 ->
  e2 = e1 + Z.max 0 (fexp64 (Zdigits2 m2 + e1) - e1) ->
  m3 = m2 / 2 ^ (e2 - e1) ->
  1 <= m3 /\ e1 <= e2 /\ (e2 = e1 -> m3 = m2).
Proof.
  intros Hm2 He1 He2 Hm3. rewrite fexp64_eq in He2.
  pose proof (Zdigits2_pos m2 ltac:(lia)).
  split; [|split]; [| lia |].
  - subst m3. apply shr_positive; lia.
  - intros E. rewrite Hm3, E, Z.sub_diag, Z.pow_0_r, Z.div_1_r. reflexivity.
Qed.

(** [binary_round] first aligns the mantissa to the canonical exponent when
    that is below [E]; the magnitude is unchanged. *)
Lemma binary_round_spec M E :
  exists mz ez,
    binary_round prec emax false M E = binary_round_aux prec emax false mz ez loc_Exact /\
    mz = Zpos M * 2 ^ Z.max 0 (E - fexp64 (Zdigits2 (Zpos M) + E)) /\
    ez = Z.min E (fexp64 (Zdigits2 (Zpos M) + E)) /\
    Zdigits2 mz + ez = Zdigits2 (Zpos M) + E.
Proof.
  unfold binary_round. fold fexp64.
  change (Zpos (digits2_pos M)) with (Zdigits2 (Zpos M)).
  destruct (shl_align_spec M E (fexp64 (Zdigits2 (Zpos M) + E))) as [A B].
  destruct (shl_align M E (fexp64 (Zdigits2 (Zpos M) + E))) as [mz ez].
  cbn [fst snd] in A, B.
  exists (Zpos mz), ez. split; [reflexivity|]. split; [exact A|]. split; [exact B|].
  rewrite A, Zdigits2_shl by lia. lia.
Qed.

(** Rounding is monotone against a representable number: if [M * 2^E] is
    at least the canonical [mx * 2^ex], so is its rounding. *)
Lemma binary_round_ge mx ex M E :
  bounded prec emax mx ex = true -> E <= ex ->
  Zpos mx * 2 ^ (ex - E) <= Zpos M ->
  SFleb (S754_finite false mx ex) (binary_round prec emax false M E) = true.
Proof.
  intros Hb HE HM.
  unfold bounded, canonical_mantissa in Hb. fold fexp64 in Hb.
  apply andb_prop in Hb. destruct Hb as [Hc Hmax].
  apply Z.eqb_eq in Hc. apply Z.leb_le in Hmax.
  change (Zpos (digits2_pos mx)) with (Zdigits2 (Zpos mx)) in Hc.
  rewrite fexp64_eq in Hc.
  destruct (binary_round_spec M E) as (mz & ez & -> & Hmz & Hez & Hd).
  remember (fexp64 (Zdigits2 (Zpos M) + E)) as e1 eqn:De1.
  pose proof De1 as De1'. rewrite fexp64_eq in De1'.
  (* the sum has at least the magnitude of [x] *)
  assert (Hmag : Zdigits2 (Zpos mx) + ex <= Zdigits2 (Zpos M) + E).
  { pose proof (Zdigits2_bounds (Zpos mx) ltac:(lia)) as [A _].
    pose proof (Zdigits2_bounds (Zpos M) ltac:(lia)) as [_ B].
    pose proof (Zdigits2_pos (Zpos mx) ltac:(lia)).
    pose proof (Zdigits2_pos (Zpos M) ltac:(lia)).
    assert (2 ^ (Zdigits2 (Zpos mx) - 1 + (ex - E)) < 2 ^ Zdigits2 (Zpos M)).
    { rewrite Z.pow_add_r by lia.
      assert (0 < 2 ^ (ex - E)) by pow2_pos. nia. }
    assert (Zdigits2 (Zpos mx) - 1 + (ex - E) < Zdigits2 (Zpos M))
      by (apply (Z.pow_lt_mono_r_iff 2); lia).
    lia. }
  assert (He1 : ex <= e1) by lia.
  assert (Hez' : ez = E) by lia.
  assert (Hmz' : mz = Zpos M).
  { rewrite Hmz. replace (Z.max 0 (E - e1)) with 0 by lia. lia. }
  clear Hmz Hez Hd. subst ez mz.
  destruct (binary_round_aux_spec (Zpos M) E loc_Exact e1 (Zpos M / 2 ^ (e1 - E)))
    as (m2 & e2 & m3 & Hm2 & He2 & Hm3 & H0 & ->); [lia | rewrite <- De1; lia | reflexivity |].
  assert (Hm1' : e1 = ex -> Zpos mx <= Zpos M / 2 ^ (e1 - E)).
  { intros ->. apply Z.div_le_lower_bound; [pow2_pos | lia]. }
  assert (Hm1 : 1 <= Zpos M / 2 ^ (e1 - E)).
  { destruct (Z.eq_dec e1 ex) as [Heq|Hne]; [specialize (Hm1' Heq); lia|].
    apply shr_positive; [lia|].
    pose proof (Zdigits2_pos (Zpos M) ltac:(lia)). lia. }
  destruct (second_shift_positive m2 e1 e2 m3 ltac:(lia) ltac:(lia) He2 Hm3) as (P & Q & R).
  destruct m3 as [|p|p]; try lia.
  destruct (e2 <=? emax - prec); [|reflexivity].
  unfold SFleb, SFcompare.
  destruct (Z.compare_spec ex e2) as [Heq|Hlt|Hgt]; [| reflexivity | lia].
  assert (e2 = e1) by lia. specialize (R H).
  assert (Zpos mx <= Zpos p) by (rewrite R; specialize (Hm1' ltac:(lia)); lia).
  rewrite Pos.compare_cont_spec. simpl.
  destruct (Pos.compare_spec mx p); try reflexivity. lia.
Qed.

Lemma SFleb_zero x : SFleb (S754_zero false) x = SFnonneg x.
Proof. destruct x as [s|[]| |[] m e]; reflexivity. Qed.

Lemma SFleb_refl x : SFnonneg x = true -> SFleb x x = true.
Proof.
  destruct x as [s|[]| |[] m e]; try reflexivity; try discriminate.
  intros _. unfold SFleb, SFcompare. rewrite Z.compare_refl, Pos.compare_cont_refl.
  reflexivity.
Qed.

Lemma binary_round_aux_nonneg m e l :
  0 <= m -> SFnonneg (binary_round_aux prec emax false m e l) = true.
Proof.
  intros Hm.
  destruct (binary_round_aux_spec m e l _ _ Hm eq_refl eq_refl)
    as (m2 & e2 & m3 & _ & _ & _ & _ & ->).
  destruct m3; try reflexivity. destruct (e2 <=? emax - prec); reflexivity.
Qed.

Lemma binary_round_nonneg M E :
  SFnonneg (binary_round prec emax false M E) = true.
Proof.
  destruct (binary_round_spec M E) as (mz & ez & -> & Hmz & _).
  apply binary_round_aux_nonneg. subst mz.
  assert (0 < 2 ^ Z.max 0 (E - fexp64 (Zdigits2 (Zpos M) + E)))
    by pow2_pos.
  nia.
Qed.

(** Adding a non-negative number never gives less, whatever the rounding. *)
Lemma SFadd_nonneg_ge x d :
  valid_binary x = true -> SFnonneg x = true -> SFnonneg d = true ->
  SFleb x (SF64add x d) = true /\ SFnonneg (SF64add x d) = true.
Proof.
  intros Hv Hx Hd.
  destruct x as [sx|[]| |[] mx ex]; try discriminate;
  destruct d as [sd|[]| |[] md ed]; try discriminate;
  try (split; reflexivity);
  try (destruct sx; split; reflexivity);
  try (destruct sx, sd; split; reflexivity).
  - split; [apply SFleb_refl|]; reflexivity.
  - unfold SF64add, SFadd. cbn [cond_Zopp].
    destruct (shl_align_spec mx ex (Z.min ex ed)) as [A _].
    destruct (shl_align_spec md ed (Z.min ex ed)) as [B _].
    set (a := fst (shl_align mx ex (Z.min ex ed))) in *.
    set (b := fst (shl_align md ed (Z.min ex ed))) in *.
    change (Zpos a + Zpos b) with (Zpos (a + b)).
    cbn [binary_normalize]. split; [|apply binary_round_nonneg].
    apply binary_round_ge; [exact Hv | lia |].
    rewrite Pos2Z.inj_add, A.
    replace (Z.max 0 (ex - Z.min ex ed)) with (ex - Z.min ex ed) by lia. lia.
Qed.

End Rounding.

(** ** Binary64 arithmetic: conversions, quotients and products

    The numbers the segmenter divides are lengths, so both operands of the
    quotient are positive integers below [2^63]. *)

Section Operations.
Local Open Scope Z_scope.

Lemma Zdigits2_le m k : 0 <= m < 2 ^ k -> 0 <= k -> Zdigits2 m <= k.
Proof.
  intros [H0 Hk] Hk0. destruct (Z.eq_dec m 0) as [->|Hne]; [simpl; lia|].
  pose proof (Zdigits2_bounds m ltac:(lia)) as [A _].
  pose proof (Zdigits2_pos m ltac:(lia)).
  assert (Zdigits2 m - 1 < k) by (apply (Z.pow_lt_mono_r_iff 2); lia).
  lia.
Qed.

Lemma first_shift_bound m e e1 :
  0 <= m -> e1 = e + Z.max 0 (fexp64 (Zdigits2 m + e) - e) ->
  m / 2 ^ (e1 - e) < 2 ^ 53 /\ -1074 <= e1.
Proof.
  intros Hm He1. rewrite fexp64_eq in He1. split; [|lia].
  assert (0 < 2 ^ (e1 - e)) by pow2_pos.
  apply Z.div_lt_upper_bound; [lia|].
  destruct (Z.eq_dec m 0) as [->|Hne]; [lia|].
  pose proof (Zdigits2_bounds m ltac:(lia)) as [_ B].
  pose proof (Zdigits2_pos m ltac:(lia)).
  rewrite <- Z.pow_add_r by lia.
  assert (2 ^ Zdigits2 m <= 2 ^ (e1 - e + 53)) by (apply Z.pow_le_mono_r; lia).
  lia.
Qed.

(** Rounding a mantissa that survives the first shift gives a positive
    finite number or [+Infinity], with an exponent one above the canonical
    one at most. *)
Lemma binary_round_aux_pos m e l e1 :
  0 <= m -> e1 = e + Z.max 0 (fexp64 (Zdigits2 m + e) - e) ->
  1 <= m / 2 ^ (e1 - e) ->
  binary_round_aux prec emax false m e l = S754_infinity false \/
  exists p e2, binary_round_aux prec emax false m e l = S754_finite false p e2 /\
               e1 <= e2 <= e1 + 1.
Proof.
  intros Hm He1 Hm1.
  destruct (binary_round_aux_spec m e l e1 _ Hm He1 eq_refl)
    as (m2 & e2 & m3 & Hm2 & He2 & Hm3 & H0 & ->).
  destruct (first_shift_bound m e e1 Hm He1) as [Hb Hmin].
  destruct (second_shift_positive m2 e1 e2 m3 ltac:(lia) Hmin He2 Hm3) as (P & Q & R).
  assert (Zdigits2 m2 <= 54) by (apply Zdigits2_le; lia).
  rewrite fexp64_eq in He2.
  destruct m3 as [|p|p]; try lia.
  destruct (e2 <=? emax - prec); [right | now left].
  exists p, e2. split; [reflexivity | lia].
Qed.

(** A positive integer below [2^63] converts to a positive finite number;
    its exponent lies between -52 and 11. *)
Lemma binary_normalize_pos z :
  0 < z < 2 ^ 63 ->
  exists p e, binary_normalize prec emax z 0 false = S754_finite false p e /\
              -52 <= e <= 11.
Proof.
  intros Hz. destruct z as [|M|M]; try lia. cbn [binary_normalize].
  destruct (binary_round_spec M 0) as (mz & ez & -> & Hmz & Hez & Hd).
  pose proof (Zdigits2_pos (Zpos M) ltac:(lia)) as Hd1.
  assert (Hd2 : Zdigits2 (Zpos M) <= 63) by (apply Zdigits2_le; lia).
  rewrite Z.add_0_r in *. rewrite fexp64_eq in *.
  assert (Hmz0 : 0 < mz).
  { subst mz. assert (0 < 2 ^ Z.max 0 (0 - Z.max (Zdigits2 (Zpos M) - 53) (-1074)))
      by pow2_pos. nia. }
  destruct (binary_round_aux_pos mz ez loc_Exact (Zdigits2 (Zpos M) - 53))
    as [Hinf|(p & e2 & -> & He2)].
  - lia.
  - rewrite fexp64_eq, Hd. lia.
  - apply shr_positive; [lia|]. lia.
  - exfalso. revert Hinf.
    destruct (binary_round_aux_spec mz ez loc_Exact (Zdigits2 (Zpos M) - 53) _
                ltac:(lia) ltac:(rewrite fexp64_eq, Hd; lia) eq_refl)
      as (m2 & e2 & m3 & Hm2 & He2 & Hm3 & H0 & ->).
    destruct (first_shift_bound mz ez (Zdigits2 (Zpos M) - 53) ltac:(lia)
                ltac:(rewrite fexp64_eq, Hd; lia)) as [Hb _].
    assert (0 <= mz / 2 ^ (Zdigits2 (Zpos M) - 53 - ez))
      by (apply Z.div_pos; [lia | pow2_pos]).
    assert (Zdigits2 m2 <= 54) by (apply Zdigits2_le; lia).
    pose proof (Zdigits2_nonneg m2 ltac:(lia)).
    rewrite fexp64_eq in He2.
    destruct m3; try discriminate.
    destruct (Z.leb_spec e2 (emax - prec)) as [|Hgt]; [discriminate|].
    change (emax - prec) with 971 in Hgt. lia.
  - exists p, e2. split; [reflexivity | lia].
Qed.

(** The quotient of two such numbers does not underflow to zero. *)
Lemma SFdiv_pos mx ex my ey :
  Zdigits2 (Zpos mx) <= 53 -> Zdigits2 (Zpos my) <= 53 ->
  -52 <= ex <= 11 -> -52 <= ey <= 11 ->
  SFpos (SF64div (S754_finite false mx ex) (S754_finite false my ey)) = true.
Proof.
  intros Hdx Hdy Hex Hey.
  pose proof (Zdigits2_pos (Zpos mx) ltac:(lia)) as Hx1.
  pose proof (Zdigits2_pos (Zpos my) ltac:(lia)) as Hy1.
  pose proof (Zdigits2_bounds (Zpos mx) ltac:(lia)) as [Bx _].
  pose proof (Zdigits2_bounds (Zpos my) ltac:(lia)) as [_ By].
  unfold SF64div, SFdiv, SFdiv_core_binary. cbn [xorb]. fold fexp64.
  rewrite fexp64_eq.
  set (d1 := Zdigits2 (Zpos mx)) in *. set (d2 := Zdigits2 (Zpos my)) in *.
  replace (Z.min (Z.max (d1 + ex - (d2 + ey) - 53) (-1074)) (ex - ey))
    with (d1 + ex - (d2 + ey) - 53) by lia.
  replace (ex - ey - (d1 + ex - (d2 + ey) - 53)) with (53 + d2 - d1) by lia.
  destruct (53 + d2 - d1) as [|s|s] eqn:Es; try lia.
  rewrite Z.shiftl_mul_pow2 by lia.
  destruct (Z.div_eucl (Zpos mx * 2 ^ Zpos s) (Zpos my)) as [q r] eqn:Eq.
  assert (Hq : q = Zpos mx * 2 ^ Zpos s / Zpos my) by (unfold Z.div; now rewrite Eq).
  assert (Hq1 : 1 <= q).
  { rewrite Hq. apply Z.div_le_lower_bound; [lia|].
    assert (2 ^ d2 <= 2 ^ (d1 - 1) * 2 ^ Zpos s).
    { rewrite <- Z.pow_add_r by lia. apply Z.pow_le_mono_r; lia. }
    assert (0 < 2 ^ Zpos s) by pow2_pos.
    nia. }
  pose proof (Zdigits2_pos q ltac:(lia)) as Hdq.
  destruct (binary_round_aux_pos q (d1 + ex - (d2 + ey) - 53) (new_location (Zpos my) r) _
              ltac:(lia) eq_refl) as [->|(p & e2 & -> & _)]; try reflexivity.
  apply shr_positive; [lia|]. rewrite fexp64_eq. lia.
Qed.

(** A product of positive numbers is not negative and not [NaN] (it may
    underflow to zero). *)
Lemma SFmul_pos_nonneg x y :
  SFpos x = true -> SFpos y = true -> SFnonneg (SF64mul x y) = true.
Proof.
  destruct x as [sx|[]| |[] mx ex]; try discriminate;
  destruct y as [sy|[]| |[] my ey]; try discriminate; intros _ _; try reflexivity.
  unfold SF64mul, SFmul. cbn [xorb]. apply binary_round_aux_nonneg. lia.
Qed.

End Operations.

(** ** Primitive floats

    The same facts on [float], through the axioms that specify each
    primitive operation by its [SpecFloat] counterpart. *)

Section PrimitiveFloats.
Local Open Scope float_scope.

Lemma leb_zero x : (0 <=? x) = SFnonneg (Prim2SF x).
Proof. rewrite leb_spec. apply SFleb_zero. Qed.

(** [x <= x + d] for non-negative [x] and [d], in binary64. *)
Lemma add_nonneg_ge x d :
  (0 <=? x) = true -> (0 <=? d) = true ->
  (x <=? x + d) = true /\ (0 <=? x + d) = true.
Proof.
  rewrite !leb_zero, leb_spec, add_spec. intros Hx Hd.
  apply SFadd_nonneg_ge; auto using Prim2SF_valid.
Qed.

Lemma is_nan_spec x : is_nan x = true <-> Prim2SF x = S754_nan.
Proof.
  unfold is_nan. rewrite eqb_spec. split.
  - destruct (Prim2SF x) as [s|[]| |[] m e]; try reflexivity; try discriminate; cbn.
    all: unfold SFeqb, SFcompare; rewrite Z.compare_refl, Pos.compare_cont_refl; discriminate.
  - intros ->. reflexivity.
Qed.

Lemma number_of_Z_spec z : (0 <= z < 2 ^ 63)%Z ->
  Prim2SF (number_of_Z z) = binary_normalize prec emax z 0 false.
Proof.
  intros H. unfold number_of_Z. rewrite of_uint63_spec, Uint63.of_Z_spec.
  rewrite Z.mod_small; [reflexivity|]. exact H.
Qed.

Lemma ltb_zero x : (0 <? x) = SFpos (Prim2SF x).
Proof.
  rewrite ltb_spec. change (Prim2SF 0) with (S754_zero false).
  destruct (Prim2SF x) as [s|[]| |[] m e]; reflexivity.
Qed.

Lemma number_positive z : (0 < z < 2 ^ 63)%Z ->
  exists p e, Prim2SF (number_of_Z z) = S754_finite false p e /\
              (Zdigits2 (Zpos p) <= 53)%Z /\ (-52 <= e <= 11)%Z.
Proof.
  intros Hz. pose proof (Prim2SF_valid (number_of_Z z)) as Hv.
  rewrite number_of_Z_spec in * by lia.
  destruct (binary_normalize_pos z Hz) as (p & e & E & He).
  rewrite E in *. exists p, e. split; [reflexivity|]. split; [|exact He].
  cbn [SpecFloat.valid_binary] in Hv. unfold bounded, canonical_mantissa in Hv.
  apply andb_prop in Hv. destruct Hv as [Hc _]. apply Z.eqb_eq in Hc.
  fold fexp64 in Hc. rewrite fexp64_eq in Hc.
  change (Zpos (digits2_pos p)) with (Zdigits2 (Zpos p)) in Hc. lia.
Qed.

(** The share of the duration given to a chunk is never negative (and never
    [NaN]). *)
Lemma duration_nonneg chunkLen totalChars totalDuration :
  (0 < chunkLen < 2 ^ 63)%Z -> (0 < totalChars < 2 ^ 63)%Z ->
  (0 <? totalDuration) = true ->
  (0 <=? number_of_Z chunkLen / number_of_Z totalChars * totalDuration) = true.
Proof.
  intros Hc Ht Hd. rewrite ltb_zero in Hd.
  rewrite leb_zero, mul_spec, div_spec.
  destruct (number_positive chunkLen Hc) as (pc & ec & -> & Hdc & Hec).
  destruct (number_positive totalChars Ht) as (pt & et & -> & Hdt & Het).
  apply SFmul_pos_nonneg; [|exact Hd]. now apply SFdiv_pos.
Qed.

Lemma eqb_refl_nonneg x : (0 <=? x) = true -> (x =? x) = true.
Proof.
  rewrite leb_zero, eqb_spec.
  destruct (Prim2SF x) as [s|[]| |[] m e]; try reflexivity; try discriminate.
  intros _. unfold SFeqb, SFcompare. now rewrite Z.compare_refl, Pos.compare_cont_refl.
Qed.

End PrimitiveFloats.

(** ** Binary64 arithmetic: integers

    An integer below [2^53] is a binary64 number, and such integers add
    without rounding while the sum stays below [2^53]. *)

Section Exact.
Local Open Scope Z_scope.

Lemma shr_1_exact r q :
  shr_r r = false -> shr_s r = false -> 0 <= q -> shr_m r = 2 * q ->
  shr_1 r = Build_shr_record q false false.
Proof.
  destruct r as [m rb sb]. cbn [shr_r shr_s shr_m]. intros -> -> Hq ->.
  destruct q as [|p|p]; [reflexivity | reflexivity | lia].
Qed.

Lemma iter_shr_1_exact p : forall r q,
  shr_r r = false -> shr_s r = false -> 0 <= q -> shr_m r = q * 2 ^ Zpos p ->
  iter_pos shr_1 p r = Build_shr_record q false false.
Proof.
  induction p; intros r q Hr Hs Hq Hm; cbn [iter_pos];
    [assert (P : 0 < 2 ^ Zpos p) by pow2_pos | assert (P : 0 < 2 ^ Zpos p) by pow2_pos |].
  - assert (H1 : shr_1 r = Build_shr_record (q * 2 ^ Zpos p * 2 ^ Zpos p) false false).
    { apply shr_1_exact; try assumption; [nia|]. rewrite Hm, pow2_xI. lia. }
    assert (H2 : iter_pos shr_1 p (shr_1 r) = Build_shr_record (q * 2 ^ Zpos p) false false).
    { rewrite H1. apply IHp; try reflexivity. nia. }
    rewrite H2. apply IHp; try reflexivity. exact Hq.
  - assert (H2 : iter_pos shr_1 p r = Build_shr_record (q * 2 ^ Zpos p) false false).
    { apply IHp; try assumption; [nia|]. rewrite Hm, pow2_xO. lia. }
    rewrite H2. apply IHp; try reflexivity. exact Hq.
  - apply shr_1_exact; try assumption. rewrite Hm. lia.
Qed.

(** Shifting out [k] zero bits is exact. *)
Lemma shr_exact q k e : 0 <= q -> 0 <= k ->
  shr (shr_record_of_loc (q * 2 ^ k) loc_Exact) e k
  = (Build_shr_record q false false, e + k).
Proof.
  intros Hq Hk. destruct k as [|p|p]; [| |lia]; cbn [shr shr_record_of_loc].
  - rewrite Z.mul_1_r, Z.add_0_r. reflexivity.
  - rewrite (iter_shr_1_exact p _ q); try reflexivity. exact Hq.
Qed.

(** A mantissa of 53 digits followed by [k] zero bits rounds to itself. *)
Lemma binary_round_aux_exact q k e :
  0 < q -> Zdigits2 q = 53 -> 0 <= k -> -1074 <= e + k <= emax - prec ->
  binary_round_aux prec emax false (q * 2 ^ k) e loc_Exact
  = S754_finite false (Z.to_pos q) (e + k).
Proof.
  intros Hq Hd Hk He. unfold binary_round_aux, shr_fexp. fold fexp64.
  rewrite Zdigits2_shl, Hd, fexp64_eq by lia.
  replace (Z.max (53 + k + e - 53) (-1074) - e) with k by lia.
  rewrite shr_exact by lia.
  cbn [shr_m loc_of_shr_record round_nearest_even].
  rewrite Hd, fexp64_eq.
  replace (Z.max (53 + (e + k) - 53) (-1074) - (e + k)) with 0 by lia.
  cbn [shr shr_record_of_loc shr_m].
  destruct q as [|p|p]; try lia.
  replace (e + k <=? emax - prec) with true by (symmetry; apply Z.leb_le; lia).
  reflexivity.
Qed.

Lemma canonical_digits n : 0 < n < 2 ^ 53 ->
  0 < n * 2 ^ (53 - Zdigits2 n) /\ Zdigits2 (n * 2 ^ (53 - Zdigits2 n)) = 53 /\
  1 <= Zdigits2 n <= 53.
Proof.
  intros Hn. pose proof (Zdigits2_pos n ltac:(lia)).
  pose proof (Zdigits2_le n 53 ltac:(lia) ltac:(lia)).
  assert (0 < 2 ^ (53 - Zdigits2 n)) by pow2_pos.
  split; [nia|]. split; [|lia]. rewrite Zdigits2_shl by lia. lia.
Qed.

(** Rounding an integer below [2^53], given with trailing zero bits, is
    exact. *)
Lemma binary_round_integer M E n :
  0 < n < 2 ^ 53 -> E <= 0 -> Zpos M = n * 2 ^ (- E) ->
  binary_round prec emax false M E = canonical n.
Proof.
  intros Hn HE HM. destruct (canonical_digits n Hn) as (Hq & Hd & Hdn).
  destruct (binary_round_spec M E) as (mz & ez & -> & Hmz & Hez & _).
  assert (HdM : Zdigits2 (Zpos M) + E = Zdigits2 n).
  { rewrite HM, Zdigits2_shl by lia. lia. }
  rewrite HdM, fexp64_eq in Hmz, Hez.
  replace (Z.max (Zdigits2 n - 53) (-1074)) with (Zdigits2 n - 53) in Hmz, Hez by lia.
  set (q := n * 2 ^ (53 - Zdigits2 n)) in *.
  assert (Hmzq : mz = q * 2 ^ (Zdigits2 n - 53 - ez)).
  { rewrite Hmz, HM. unfold q. rewrite <- !Z.mul_assoc, <- !Z.pow_add_r by lia.
    f_equal. f_equal. lia. }
  rewrite Hmzq, binary_round_aux_exact; try assumption; try lia.
  - unfold canonical. fold q. f_equal. lia.
  - unfold emax, prec. lia.
Qed.

Lemma SFadd_integers a b : 0 < a -> 0 < b -> a + b < 2 ^ 53 ->
  SF64add (canonical a) (canonical b) = canonical (a + b).
Proof.
  intros Ha Hb Hab.
  destruct (canonical_digits a ltac:(lia)) as (Hqa & _ & Hda).
  destruct (canonical_digits b ltac:(lia)) as (Hqb & _ & Hdb).
  unfold canonical at 1 2. unfold SF64add, SFadd. cbn [cond_Zopp].
  set (ez := Z.min (Zdigits2 a - 53) (Zdigits2 b - 53)).
  destruct (shl_align_spec (Z.to_pos (a * 2 ^ (53 - Zdigits2 a))) (Zdigits2 a - 53) ez) as [A _].
  destruct (shl_align_spec (Z.to_pos (b * 2 ^ (53 - Zdigits2 b))) (Zdigits2 b - 53) ez) as [B _].
  rewrite Z2Pos.id in A, B by assumption.
  set (ma := fst (shl_align _ (Zdigits2 a - 53) ez)) in *.
  set (mb := fst (shl_align _ (Zdigits2 b - 53) ez)) in *.
  change (Zpos ma + Zpos mb) with (Zpos (ma + mb)). cbn [binary_normalize].
  apply binary_round_integer; [lia | unfold ez; lia |].
  rewrite Pos2Z.inj_add, A, B.
  rewrite <- !Z.mul_assoc, <- !Z.pow_add_r by (unfold ez; lia).
  rewrite Z.mul_add_distr_r. f_equal; f_equal; f_equal; unfold ez; lia.
Qed.

End Exact.

Section ExactPrim.
Local Open Scope Z_scope.

Lemma number_of_Z_canonical n : 0 < n < 2 ^ 53 ->
  Prim2SF (number_of_Z n) = canonical n.
Proof.
  intros Hn. rewrite number_of_Z_spec by lia.
  destruct n as [|p|p]; try lia. cbn [binary_normalize].
  apply binary_round_integer; [lia | lia |]. cbn. lia.
Qed.

Lemma truncate_canonical x n : 0 < n < 2 ^ 53 ->
  Prim2SF x = canonical n -> truncate x = n.
Proof.
  intros Hn Hx. destruct (canonical_digits n Hn) as (Hq & _ & Hd).
  unfold truncate. rewrite Hx. unfold canonical. rewrite Z2Pos.id by assumption.
  destruct (Zdigits2 n - 53) as [|k|k] eqn:E; try lia.
  - replace (53 - Zdigits2 n) with 0 by lia. cbn. lia.
  - replace (53 - Zdigits2 n) with (Zpos k) by lia.
    apply Z.div_mul. assert (0 < 2 ^ Zpos k) by pow2_pos. lia.
Qed.

(** An integer below [2^53] is a binary64 number. *)
Lemma truncate_number_of_Z n : 0 <= n < 2 ^ 53 -> truncate (number_of_Z n) = n.
Proof.
  intros Hn. destruct (Z.eq_dec n 0) as [->|Hne]; [reflexivity|].
  apply truncate_canonical; [lia|]. apply number_of_Z_canonical. lia.
Qed.

(** Integers add without rounding while the sum stays below [2^53]. *)
Lemma add_integers a b : 0 <= a -> 0 <= b -> a + b < 2 ^ 53 ->
  truncate (number_of_Z a + number_of_Z b)%float = a + b.
Proof.
  intros Ha Hb Hab.
  destruct (Z.eq_dec a 0) as [->|Ha0]; [|destruct (Z.eq_dec b 0) as [->|Hb0]].
  - destruct (Z.eq_dec b 0) as [->|Hb0]; [reflexivity|].
    assert (Hb' : 0 < b < 2 ^ 53) by lia.
    apply truncate_canonical; [lia|].
    rewrite add_spec, (number_of_Z_canonical b Hb'). reflexivity.
  - assert (Ha' : 0 < a < 2 ^ 53) by lia.
    rewrite Z.add_0_r. apply truncate_canonical; [lia|].
    rewrite add_spec, (number_of_Z_canonical a Ha'). reflexivity.
  - assert (Ha' : 0 < a < 2 ^ 53) by lia. assert (Hb' : 0 < b < 2 ^ 53) by lia.
    apply truncate_canonical; [lia|].
    rewrite add_spec, (number_of_Z_canonical a Ha'), (number_of_Z_canonical b Hb').
    apply SFadd_integers; lia.
Qed.

End ExactPrim.

(** ** The segmenter: timing *)

Section Timeline.

Lemma assign_times_chained totalChars totalDuration cs :
  (0 < Z.of_nat totalChars < 2 ^ 63)%Z ->
  (0 <? totalDuration)%float = true ->
  Forall (fun c => 1 <= length c <= totalChars) cs ->
  forall currentTime, (0 <=? currentTime)%float = true ->
  chained currentTime (assign_times totalChars totalDuration currentTime cs).
Proof.
  intros HT HD. induction cs as [|c cs IH]; intros Hcs t Ht; [exact I|].
  inversion Hcs as [|? ? Hc Hcs']; subst. cbn [assign_times chained start end_].
  assert (Hdur : (0 <=? number_of_nat (length c) / number_of_nat totalChars
                        * totalDuration)%float = true)
    by (apply duration_nonneg; [lia | lia | exact HD]).
  destruct (add_nonneg_ge _ _ Ht Hdur) as [Hle Hnn].
  repeat split; try assumption. now apply IH.
Qed.

Lemma chained_nonneg t segments :
  chained t segments -> forall seg, In seg segments ->
  (0 <=? start seg)%float = true /\ (start seg <=? end_ seg)%float = true.
Proof.
  revert t. induction segments as [|s r IH]; intros t H seg Hin; [destruct Hin|].
  destruct H as (_ & H0 & Hle & Hr). destruct Hin as [<-|Hin]; [auto|].
  eapply IH; eassumption.
Qed.

Lemma chained_adjacent t segments :
  chained t segments -> forall i a b,
  nth_error segments i = Some a -> nth_error segments (S i) = Some b ->
  end_ a = start b.
Proof.
  revert t. induction segments as [|s r IH]; intros t H i a b Ha Hb;
    [destruct i; discriminate|].
  destruct H as (_ & _ & _ & Hr). destruct i as [|i].
  - cbn in Ha, Hb. injection Ha as <-. destruct r as [|s' r]; [discriminate|].
    injection Hb as <-. symmetry. apply Hr.
  - cbn in Ha, Hb. eapply IH; eassumption.
Qed.

End Timeline.

Section SegmenterTiming.
Local Open Scope float_scope.

(** C5: for a non-empty normalized text and a positive duration the segments
    are in time order: no segment ends before it starts, each segment ends
    exactly where the next one starts (the same number, which is not [NaN],
    so [===] holds too), and starts and ends never decrease. *)
Theorem timeline_ordered fullText totalDuration :
  cleanText fullText <> [] ->
  (Z.of_nat (length fullText) < 2 ^ 53)%Z ->
  (0 <? totalDuration) = true ->
  let segments := createSmartSubtitles fullText totalDuration in
  (forall seg, In seg segments -> (start seg <=? end_ seg) = true) /\
  (forall i a b,
     nth_error segments i = Some a -> nth_error segments (S i) = Some b ->
     end_ a = start b /\ (end_ a =? start b) = true /\
     (start a <=? start b) = true /\ (end_ a <=? end_ b) = true).
Proof.
  intros Hne Hlen Hd segments.
  pose proof (length_cleanText fullText) as Hcl.
  assert (Hpos : 0 < length (cleanText fullText))
    by (destruct (cleanText fullText); [congruence | cbn; lia]).
  assert (Hch : chained 0 segments).
  { apply assign_times_chained; [lia | exact Hd | | reflexivity].
    apply Forall_forall. intros c Hc. now apply chunk_lengths. }
  split.
  - intros seg Hseg. now apply (chained_nonneg _ _ Hch).
  - intros i a b Ha Hb.
    pose proof (chained_adjacent _ _ Hch _ _ _ Ha Hb) as Hab.
    destruct (chained_nonneg _ _ Hch a (nth_error_In _ _ Ha)) as [_ Hla].
    destruct (chained_nonneg _ _ Hch b (nth_error_In _ _ Hb)) as [H0b Hlb].
    repeat split.
    + exact Hab.
    + rewrite Hab. now apply eqb_refl_nonneg.
    + now rewrite <- Hab.
    + now rewrite Hab.
Qed.

Lemma timeline_ordered_witness :
  let segments := createSmartSubtitles (of_string "a b. c d.") 9 in
  (forall seg, In seg segments -> (start seg <=? end_ seg) = true) /\
  (forall i a b,
     nth_error segments i = Some a -> nth_error segments (S i) = Some b ->
     end_ a = start b /\ (end_ a =? start b) = true /\
     (start a <=? start b) = true /\ (end_ a <=? end_ b) = true).
Proof.
  apply timeline_ordered; [vm_compute; discriminate | reflexivity | reflexivity].
Defined.

End SegmenterTiming.

(** ** Coverage of the duration *)

Section Coverage.
Local Open Scope float_scope.

(** C1: on the scenario of the specification (6 seconds) the last segment
    ends at 5.806..., not at 6: the shares are chunk lengths over the length
    of the whole text, and the three spaces between the four chunks are in
    no chunk. *)
Theorem coverage_falls_short :
  let segments := createSmartSubtitles scenario 6 in
  map text segments =
    map of_string ["Faith is not about everything"; "turning out okay.";
                   "It's about trusting God even"; "when it doesn't."]%string /\
  length (cleanText scenario) = 93%nat /\
  exists e, last_end segments = Some e /\ e = 5.806451612903226 /\
            (abs (e - 6) <=? 1e-6) = false.
Proof.
  cbv zeta. split; [|split]; [vm_compute; reflexivity ..|].
  eexists. split; [vm_compute; reflexivity|]. split; reflexivity.
Qed.

End Coverage.

(** ** Empty text *)

Section EmptyText.
Local Open Scope float_scope.

(** C2 as stated fails: for the empty string the result is not the empty
    list but one segment, and its [end] is [NaN]. *)
Lemma empty_text_is_not_guarded :
  createSmartSubtitles (of_string "") 6 = [mkSegment [] 0 nan] /\
  createSmartSubtitles (of_string "") 6 <> [] /\
  existsb (fun seg => is_nan (end_ seg)) (createSmartSubtitles (of_string "") 6)
    = true.
Proof. vm_compute. repeat split. discriminate. Qed.

Lemma is_nan_share totalDuration :
  is_nan (0 + number_of_nat 0 / number_of_nat 0 * totalDuration) = true.
Proof.
  apply is_nan_spec. rewrite add_spec, mul_spec.
  change (Prim2SF (number_of_nat 0 / number_of_nat 0)) with S754_nan.
  reflexivity.
Qed.

(** C2, amended: for a text that normalizes to the empty string the division
    by zero is not guarded; the result is one segment with the empty text,
    [start = 0] and [end = NaN]. *)
Theorem empty_text_segment fullText totalDuration :
  cleanText fullText = [] ->
  exists e, createSmartSubtitles fullText totalDuration = [mkSegment [] 0 e] /\
            is_nan e = true.
Proof.
  intros H. unfold createSmartSubtitles. rewrite H. cbn.
  eexists. split; [reflexivity|]. apply is_nan_share.
Qed.

Lemma empty_text_segment_witness :
  exists e, createSmartSubtitles (of_string "  ") 6 = [mkSegment [] 0 e] /\
            is_nan e = true.
Proof. apply empty_text_segment. reflexivity. Defined.

End EmptyText.

(** ** Active caption lookup *)

Section Lookup.
Local Open Scope float_scope.








End Lookup.

(** ** Duration estimate *)

Section Estimator.
Local Open Scope float_scope.

(** C8: the estimate is the byte count over 48000, which is what the format
    constants give (24000 Hz, 1 channel, 2 bytes per sample); 48000 bytes
    are exactly 1 second, 0 bytes 0 seconds, 96000 bytes 2 seconds. *)
Theorem duration_estimate :
  (forall sampleByteLength,
     audioDurationSeconds sampleByteLength
       = number_of_Z sampleByteLength / 48000 /\
     audioDurationSeconds sampleByteLength
       = durationFromFormat sampleByteLength) /\
  audioDurationSeconds 48000 = 1 /\
  audioDurationSeconds 0 = 0 /\
  audioDurationSeconds 96000 = 2.
Proof. repeat split. Qed.

End Estimator.

(** ** The WAV header *)

Section WavHeader.
Local Open Scope Z_scope.

Lemma createWavHeader_layout dataLength sampleRate numChannels bitsPerSample :
  createWavHeader dataLength sampleRate numChannels bitsPerSample =
  Some (map byte.of_Z [82; 73; 70; 70]
        ++ le_split 4 (truncate (36 + dataLength)%float)
        ++ map byte.of_Z [87; 65; 86; 69; 102; 109; 116; 32]
        ++ le_split 4 16 ++ le_split 2 1
        ++ le_split 2 (truncate numChannels)
        ++ le_split 4 (truncate sampleRate)
        ++ le_split 4 (truncate (sampleRate * numChannels * (bitsPerSample / 8))%float)
        ++ le_split 2 (truncate (numChannels * (bitsPerSample / 8))%float)
        ++ le_split 2 (truncate bitsPerSample)
        ++ map byte.of_Z [100; 97; 116; 97]
        ++ le_split 4 (truncate dataLength)).
Proof. reflexivity. Qed.

Lemma le_combine_split_4 z : le_combine (le_split 4 z) = z mod 2 ^ 32.
Proof. apply le_combine_split. Qed.

(** The three fields, whatever the arguments: each holds the integer part
    of its value modulo [2^32]; the value at offset 4 is the binary64 sum. *)
Lemma createWavHeader_fields dataLength sampleRate numChannels bitsPerSample :
  exists header,
    createWavHeader dataLength sampleRate numChannels bitsPerSample = Some header /\
    length header = 44%nat /\
    getUint32 4 true header = Some (truncate (36 + dataLength)%float mod 2 ^ 32) /\
    getUint32 40 true header = Some (truncate dataLength mod 2 ^ 32) /\
    getUint32 28 true header =
      Some (truncate (sampleRate * numChannels * (bitsPerSample / 8))%float mod 2 ^ 32).
Proof.
  eexists. split; [apply createWavHeader_layout|].
  split; [reflexivity|].
  split; [|split].
  - change (getUint32 4 true _)
      with (Some (le_combine (le_split 4 (truncate (36 + dataLength)%float)))).
    now rewrite le_combine_split_4.
  - change (getUint32 40 true _) with (Some (le_combine (le_split 4 (truncate dataLength)))).
    now rewrite le_combine_split_4.
  - change (getUint32 28 true _) with
      (Some (le_combine (le_split 4
         (truncate (sampleRate * numChannels * (bitsPerSample / 8))%float)))).
    now rewrite le_combine_split_4.
Qed.

(** An integer data length below [2^53 - 36]: neither the conversion nor
    the sum rounds. *)
Lemma header_lengths_exact n : 0 <= n -> 36 + n < 2 ^ 53 ->
  truncate (36 + number_of_Z n)%float = 36 + n /\ truncate (number_of_Z n) = n.
Proof.
  intros H0 H53. split.
  - change 36%float with (number_of_Z 36). apply add_integers; lia.
  - apply truncate_number_of_Z. lia.
Qed.

(** C9 as stated fails once [36 + dataLength] no longer fits the 32-bit
    field: for [dataLength = 2^32 - 36] the RIFF length reads 0. *)
Lemma riff_length_wraps :
  exists header,
    createWavHeader_default 4294967260%float = Some header /\
    getUint32 4 true header = Some 0 /\
    getUint32 4 true header <> Some (36 + 4294967260).
Proof.
  eexists. split; [vm_compute; reflexivity|]. split; [vm_compute; reflexivity|].
  vm_compute. discriminate.
Qed.

(** The sum at offset 4 is rounded as a binary64 number before it is
    wrapped: for [dataLength = 2^53 - 1] the field reads 36, where the
    integer [36 + dataLength] would give 35. *)
Lemma riff_length_rounds :
  exists header,
    createWavHeader_default 9007199254740991%float = Some header /\
    getUint32 4 true header = Some 36 /\
    (36 + 9007199254740991) mod 2 ^ 32 = 35.
Proof.
  eexists. split; [vm_compute; reflexivity|]. split; vm_compute; reflexivity.
Qed.

(** C9, amended: for every integer [n >= 0] with [36 + n < 2^32], passed as
    the number [dataLength], the header has 44 bytes, the RIFF length at
    offset 4 is [36 + n], the data length at offset 40 is [n], and the byte
    rate at offset 28 is [sampleRate * numChannels * (bitsPerSample / 8)] as
    an unsigned 32-bit integer, 48000 for the defaults.  For every number
    [dataLength] whatever (beyond the bound, not an integer, [NaN]) the
    header still has 44 bytes, and the fields at offsets 4 and 40 hold the
    integer parts of the binary64 sum [36 + dataLength] and of [dataLength]
    modulo [2^32]. *)
Theorem wav_header_fields n dataLength sampleRate numChannels bitsPerSample :
  0 <= n -> 36 + n < 2 ^ 32 ->
  (exists header,
     createWavHeader (number_of_Z n) sampleRate numChannels bitsPerSample = Some header /\
     length header = 44%nat /\
     getUint32 4 true header = Some (36 + n) /\
     getUint32 40 true header = Some n /\
     getUint32 28 true header =
       Some (truncate (sampleRate * numChannels * (bitsPerSample / 8))%float mod 2 ^ 32)) /\
  truncate (24000 * 1 * (16 / 8))%float mod 2 ^ 32 = 48000 /\
  (exists header,
     createWavHeader dataLength sampleRate numChannels bitsPerSample = Some header /\
     length header = 44%nat /\
     getUint32 4 true header = Some (truncate (36 + dataLength)%float mod 2 ^ 32) /\
     getUint32 40 true header = Some (truncate dataLength mod 2 ^ 32) /\
     getUint32 28 true header =
       Some (truncate (sampleRate * numChannels * (bitsPerSample / 8))%float mod 2 ^ 32)).
Proof.
  intros H0 H32. split; [|split; [reflexivity | apply createWavHeader_fields]].
  destruct (createWavHeader_fields (number_of_Z n) sampleRate numChannels bitsPerSample)
    as (header & Hh & Hlen & H4 & H40 & H28).
  destruct (header_lengths_exact n H0 ltac:(lia)) as [E4 E40].
  exists header. split; [exact Hh|]. split; [exact Hlen|].
  split; [|split; [|exact H28]].
  - rewrite H4, E4. f_equal. apply Z.mod_small. lia.
  - rewrite H40, E40. f_equal. apply Z.mod_small. lia.
Qed.

Lemma wav_header_fields_witness :
  (exists header,
     createWavHeader (number_of_Z 48000) 24000 1 16 = Some header /\
     length header = 44%nat /\
     getUint32 4 true header = Some (36 + 48000) /\
     getUint32 40 true header = Some 48000 /\
     getUint32 28 true header = Some (truncate (24000 * 1 * (16 / 8))%float mod 2 ^ 32)) /\
  truncate (24000 * 1 * (16 / 8))%float mod 2 ^ 32 = 48000 /\
  (exists header,
     createWavHeader 9007199254740991 24000 1 16 = Some header /\
     length header = 44%nat /\
     getUint32 4 true header
       = Some (truncate (36 + 9007199254740991)%float mod 2 ^ 32) /\
     getUint32 40 true header = Some (truncate 9007199254740991%float mod 2 ^ 32) /\
     getUint32 28 true header = Some (truncate (24000 * 1 * (16 / 8))%float mod 2 ^ 32)).
Proof.
  apply (wav_header_fields 48000 9007199254740991 24000 1 16); [discriminate | reflexivity].
Defined.

End WavHeader.

(** ** Normalization is idempotent *)

Section Idempotence.

Lemma replace_ws_runs_fixed s :
  collapsed s -> replace_ws_runs false s = s /\
  (starts_solid s -> replace_ws_runs true s = s).
Proof.
  induction s as [|c r IH]; intros H; [split; reflexivity|].
  destruct H as [Hc Hr]. destruct (IH Hr) as [A B].
  cbn [replace_ws_runs starts_solid]. destruct (is_whitespace c) eqn:W.
  - destruct (Hc eq_refl) as [-> Hnext]. split; [|discriminate].
    f_equal. apply B. destruct r; [exact I | exact Hnext].
  - split; intros; now rewrite A.
Qed.

Lemma trim_start_solid s : starts_solid s -> trim_start s = s.
Proof. destruct s as [|c r]; [reflexivity|]. cbn. now intros ->. Qed.

Lemma trim_start_starts_solid s : starts_solid (trim_start s).
Proof.
  induction s as [|c r IH]; [exact I|]. cbn [trim_start].
  destruct (is_whitespace c) eqn:W; [exact IH | exact W].
Qed.

Lemma trim_end_ends_solid s : ends_solid (trim_end s).
Proof. unfold ends_solid, trim_end. rewrite rev_involutive. apply trim_start_starts_solid. Qed.

Lemma trim_end_solid s : ends_solid s -> trim_end s = s.
Proof.
  unfold ends_solid, trim_end. intros H. rewrite trim_start_solid by exact H.
  apply rev_involutive.
Qed.

Lemma trim_end_collapsed s : collapsed s -> collapsed (trim_end s).
Proof.
  induction s as [|c r IH]; intros H; [exact I|]. destruct H as [Hc Hr].
  rewrite trim_end_cons. specialize (IH Hr).
  destruct (trim_end r) as [|x t] eqn:E.
  - destruct (is_whitespace c) eqn:W; [exact I|]. cbn. split; [congruence | exact I].
  - cbn [collapsed]. split; [|exact IH]. intros W.
    destruct (Hc W) as [-> Hx]. split; [reflexivity|].
    destruct (trim_end_head _ _ _ E) as (r' & ->). exact Hx.
Qed.

Lemma cleanText_collapsed fullText : collapsed (cleanText fullText).
Proof.
  unfold cleanText, trim. apply trim_end_collapsed.
  apply trim_start_collapsed. apply replace_ws_runs_collapsed.
Qed.

Lemma cleanText_ends_solid fullText : ends_solid (cleanText fullText).
Proof. apply trim_end_ends_solid. Qed.

Lemma cleanText_fixed s :
  collapsed s -> starts_solid s -> ends_solid s -> cleanText s = s.
Proof.
  intros Hc Hs He. unfold cleanText, trim.
  destruct (replace_ws_runs_fixed s Hc) as [-> _].
  rewrite trim_start_solid by exact Hs. now apply trim_end_solid.
Qed.

(** X1: normalization is idempotent, and the segmenter sees only the
    normalized text: a text and its normalized form get the same segments. *)
Theorem normalization_idempotent fullText totalDuration :
  cleanText (cleanText fullText) = cleanText fullText /\
  createSmartSubtitles (cleanText fullText) totalDuration
  = createSmartSubtitles fullText totalDuration.
Proof.
  assert (H : cleanText (cleanText fullText) = cleanText fullText).
  { apply cleanText_fixed.
    - apply cleanText_collapsed.
    - apply cleanText_normal.
    - apply cleanText_ends_solid. }
  split; [exact H|]. unfold createSmartSubtitles. now rewrite H.
Qed.

End Idempotence.

(** ** Caption hygiene *)

Section Hygiene.

Lemma collapsed_spaces s :
  collapsed s -> Forall (fun c => is_whitespace c = true -> c = SPACE) s.
Proof.
  induction s as [|c r IH]; intros H; constructor.
  - intros W. now apply H.
  - apply IH, H.
Qed.

Lemma split_solid s :
  Forall (fun c => is_whitespace c = true -> c = SPACE) s -> Forall solid (split s).
Proof.
  induction s as [|c r IH]; intros H; cbn [split].
  - repeat constructor.
  - inversion H as [|? ? Hc Hr]; subst. specialize (IH Hr).
    destruct (N.eqb_spec c SPACE) as [->|Hne].
    + constructor; [constructor | exact IH].
    + assert (W : is_whitespace c = false).
      { destruct (is_whitespace c); [now specialize (Hc eq_refl) | reflexivity]. }
      destruct (split r) as [|w ws]; [repeat constructor; exact W|].
      inversion IH; subst. constructor; [constructor; assumption | assumption].
Qed.

Lemma solid_single_spaced w rest :
  solid w -> single_spaced rest -> single_spaced (w ++ rest).
Proof.
  induction 1 as [|c w Hc Hw IH]; intros Hr; [exact Hr|].
  cbn [app single_spaced]. split; [|now apply IH].
  intros ->. discriminate.
Qed.

Lemma join_tidy g :
  g <> [] -> Forall (fun w => w <> []) g -> Forall solid g -> tidy (join g).
Proof.
  induction g as [|w g IH]; intros Hne Hw Hs; [congruence|].
  inversion Hw as [|? ? Hw1 Hw']; subst. inversion Hs as [|? ? Hs1 Hs']; subst.
  assert (Hstart : forall rest, starts_solid (w ++ rest)).
  { intros rest. destruct w as [|c w]; [congruence|]. now inversion Hs1. }
  assert (Hend : starts_solid (rev w)).
  { destruct (rev w) as [|c t] eqn:E; [exact I|]. cbn.
    unfold solid in Hs1. rewrite Forall_forall in Hs1. apply Hs1.
    apply in_rev. rewrite E. now left. }
  destruct g as [|w' g].
  - cbn [join]. repeat split; try assumption.
    + rewrite <- (app_nil_r w). apply Hstart.
    + rewrite <- (app_nil_r w). now apply solid_single_spaced.
    + eapply Forall_impl; [|exact Hs1]. cbn. congruence.
  - rewrite join_cons by discriminate.
    destruct (IH ltac:(discriminate) Hw' Hs') as (Jne & Jstart & Jend & Jsp & Jws).
    repeat split.
    + destruct w; discriminate.
    + apply Hstart.
    + unfold ends_solid in *. rewrite rev_app_distr. cbn [rev].
      rewrite <- app_assoc.
      destruct (rev (join (w' :: g))) as [|c t] eqn:E.
      * apply (f_equal (@rev _)) in E. rewrite rev_involutive in E. now cbn in E.
      * exact Jend.
    + apply solid_single_spaced; [exact Hs1|]. cbn [single_spaced]. split; [|exact Jsp].
      intros _. destruct (join (w' :: g)) as [|c t]; [congruence|].
      intros ->. cbn in Jstart. discriminate.
    + apply Forall_app. split.
      * eapply Forall_impl; [|exact Hs1]. cbn. congruence.
      * constructor; [reflexivity | exact Jws].
Qed.

(** X2: when the normalized text is not empty every caption is tidy: not
    empty, without whitespace at either end, and with no whitespace inside
    other than single spaces. *)
Theorem captions_tidy fullText totalDuration :
  cleanText fullText <> [] ->
  Forall (fun seg => tidy (text seg)) (createSmartSubtitles fullText totalDuration).
Proof.
  intros Hne.
  assert (H : Forall tidy (map text (createSmartSubtitles fullText totalDuration))).
  { rewrite texts_createSmartSubtitles.
    destruct (make_chunks_groups (split (cleanText fullText)))
      as (init & tail & -> & Hc & Hi & Ht).
    pose proof (groups_nonempty _ _ Hi Ht) as Hg.
    pose proof (words_nonempty fullText Hne) as Hw.
    pose proof (split_solid _ (collapsed_spaces _ (cleanText_collapsed fullText))) as Hs.
    rewrite <- Hc in Hw, Hs. apply Forall_concat_inv in Hw, Hs.
    rewrite Forall_forall in *. intros c Hin. apply in_map_iff in Hin.
    destruct Hin as (g & <- & Hin). apply join_tidy; auto. }
  rewrite Forall_forall in *. intros seg Hin. apply H. now apply in_map.
Qed.

Lemma captions_tidy_witness :
  Forall (fun seg => tidy (text seg))
    (createSmartSubtitles (of_string " Be  still,  and know. ") 3%float).
Proof. apply captions_tidy. vm_compute. discriminate. Defined.

(** X3: captions and words: a caption holds at most 6 words and all but the
    last at least 2, so [w] words give between [w/6] and [(w+1)/2]
    segments. *)
Theorem segment_count fullText totalDuration :
  let words := split (cleanText fullText) in
  let n := length (createSmartSubtitles fullText totalDuration) in
  length words <= 6 * n /\ 2 * n <= length words + 1.
Proof.
  intros words n.
  assert (Hn : n = length (make_chunks words)).
  { unfold n. rewrite <- (length_map text). now rewrite texts_createSmartSubtitles. }
  destruct (make_chunks_groups words) as (init & tail & Hm & Hc & Hi & Ht).
  rewrite Hm, length_map, length_app in Hn. rewrite <- Hc, concat_app, length_app.
  assert (Hinit : 2 * length init <= length (concat init) <= 6 * length init).
  { clear -Hi. induction Hi as [|g gs Hg _ IH]; cbn [concat length]; [lia|].
    rewrite length_app. lia. }
  destruct Ht as [->|(g & -> & Hg)]; cbn [concat length] in *;
    rewrite ?app_nil_r; lia.
Qed.

End Hygiene.

(** ** Where the greedy pass breaks *)

Section BreakRule.

Lemma tl_snoc {A} (l : list A) x : l <> [] -> tl (l ++ [x]) = tl l ++ [x].
Proof. destruct l; [congruence | reflexivity]. Qed.

Lemma chunk_step_shape done st word :
  shape_inv done st -> shape_inv (done ++ [word]) (chunk_step st word).
Proof.
  intros (gs & Hc & Hd & Hne & Hg & Hq & Hn).
  remember (currentChunk st) as cur eqn:Ecur.
  assert (Hlen : length (cur ++ [word]) = S (length cur))
    by (rewrite length_app; cbn; lia).
  assert (Hclosed : shape_inv (done ++ [word])
            (mkState (chunks st ++ [join (cur ++ [word])]) [])).
  { exists (gs ++ [cur ++ [word]]). cbn [chunks currentChunk]. repeat split.
    - now rewrite map_app, Hc.
    - now rewrite concat_snoc, app_nil_r, app_assoc, Hd.
    - apply Forall_app. split; [exact Hne|]. constructor; [|constructor].
      destruct cur; discriminate.
    - apply Forall_app. split; [exact Hg|]. constructor; [|constructor]. split.
      + unfold breaks_at_sentence_end, inner_words. now rewrite removelast_last.
      + unfold narrow_before_last. rewrite removelast_last. intros H. apply Hn. lia.
    - constructor.
    - cbn. lia. }
  unfold chunk_step. rewrite <- Ecur.
  destruct (((25 <? length (join (cur ++ [word]))) || endsWithPunctuation word)
            && (2 <=? length (cur ++ [word]))) eqn:E; [exact Hclosed|].
  destruct (6 <=? length (cur ++ [word])) eqn:F; [exact Hclosed|].
  exists gs. cbn [chunks currentChunk]. repeat split; try assumption.
  - now rewrite app_assoc, Hd.
  - destruct cur as [|w0 cur']; [constructor|].
    change (tl ((w0 :: cur') ++ [word])) with (cur' ++ [word]).
    apply Forall_app. split; [exact Hq|]. constructor; [|constructor].
    assert (L : (2 <=? length ((w0 :: cur') ++ [word])) = true)
      by (apply Nat.leb_le; rewrite length_app; cbn; lia).
    rewrite L, andb_true_r in E. now apply orb_false_elim in E.
  - intros H2. apply Nat.leb_le in H2. rewrite H2, andb_true_r in E.
    apply orb_false_elim in E. destruct E as [E _]. now apply Nat.ltb_ge in E.
Qed.

Lemma run_shape words : shape_inv words (run words).
Proof.
  induction words as [|word words IH] using rev_ind.
  - exists []. split; [reflexivity|]. split; [reflexivity|].
    split; [constructor|]. split; [constructor|]. split; [constructor|].
    cbn. lia.
  - rewrite run_snoc. now apply chunk_step_shape.
Qed.

Lemma Forall_tl_removelast {A} (P : A -> Prop) (l : list A) :
  Forall P (tl l) -> Forall P (tl (removelast l)).
Proof.
  destruct l as [|a l]; [auto|]. cbn [tl]. intros H.
  destruct l as [|b l]; [constructor|].
  change (removelast (a :: b :: l)) with (a :: removelast (b :: l)). cbn [tl].
  rewrite Forall_forall in *. intros x Hx. apply H.
  clear -Hx. revert b Hx. induction l as [|c l IH]; intros b Hx; [destruct Hx|].
  change (removelast (b :: c :: l)) with (b :: removelast (c :: l)) in Hx.
  destruct Hx as [<-|Hx]; [now left | right; now apply IH].
Qed.

Lemma length_join_removelast g : length (join (removelast g)) <= length (join g).
Proof.
  induction g as [|w g IH]; [reflexivity|]. destruct g as [|w' g]; [cbn; lia|].
  change (removelast (w :: w' :: g)) with (w :: removelast (w' :: g)).
  rewrite (join_cons w (w' :: g)) by discriminate.
  destruct (removelast (w' :: g)) as [|v r] eqn:E.
  - cbn [join]. rewrite length_app. lia.
  - rewrite join_cons by discriminate. rewrite !length_app. cbn [length]. lia.
Qed.

(** The chunks as groups of words, each with the shape the loop gives it. *)
Lemma make_chunks_shape words :
  Forall no_space words ->
  Forall (fun c => breaks_at_sentence_end (split c) /\ narrow_before_last (split c))
    (make_chunks words).
Proof.
  intros Hw. destruct (run_shape words) as (gs & Hc & Hd & Hne & Hg & Hq & Hn).
  assert (Hall : Forall no_space (concat gs) /\ Forall no_space (currentChunk (run words)))
    by (apply Forall_app; now rewrite Hd).
  destruct Hall as [Hgs Hcur]. apply Forall_concat_inv in Hgs.
  assert (Hclosed : Forall (fun c => breaks_at_sentence_end (split c)
                                     /\ narrow_before_last (split c)) (chunks (run words))).
  { rewrite Hc. rewrite Forall_forall in *. intros c Hin.
    apply in_map_iff in Hin. destruct Hin as (g & <- & Hin).
    rewrite split_join by auto. auto. }
  unfold make_chunks. fold (run words).
  destruct (0 <? length (currentChunk (run words))) eqn:E; [|exact Hclosed].
  apply Forall_app. split; [exact Hclosed|]. constructor; [|constructor].
  apply Nat.ltb_lt in E.
  rewrite split_join; [| destruct (currentChunk (run words)); [cbn in E; lia | discriminate] | exact Hcur].
  split.
  - now apply Forall_tl_removelast.
  - intros H3. etransitivity; [apply length_join_removelast|]. apply Hn. lia.
Qed.

(** X4: captions break at sentence ends: a word ending in [.], [!] or [?]
    is the last word of its caption, unless it is the first. *)
Theorem captions_break_at_sentence_end fullText totalDuration :
  Forall (fun seg => breaks_at_sentence_end (split (text seg)))
    (createSmartSubtitles fullText totalDuration).
Proof.
  pose proof (make_chunks_shape _ (split_no_space (cleanText fullText))) as H.
  rewrite <- (texts_createSmartSubtitles fullText totalDuration) in H.
  rewrite Forall_map in H. eapply Forall_impl; [|exact H]. now intros seg [A _].
Qed.

(** X5: a caption of three or more words is long only by its last word:
    without it, it has at most 25 code units. *)
Theorem captions_narrow_before_last fullText totalDuration :
  Forall (fun seg => narrow_before_last (split (text seg)))
    (createSmartSubtitles fullText totalDuration).
Proof.
  pose proof (make_chunks_shape _ (split_no_space (cleanText fullText))) as H.
  rewrite <- (texts_createSmartSubtitles fullText totalDuration) in H.
  rewrite Forall_map in H. eapply Forall_impl; [|exact H]. now intros seg [_ B].
Qed.

End BreakRule.

(** ** The order of binary64 numbers *)

Section Order.
Local Open Scope Z_scope.

Lemma SFcompare_antisym x y :
  SFcompare y x = option_map CompOpp (SFcompare x y).
Proof.
  destruct x as [sx|sx| |sx mx ex], y as [sy|sy| |sy my ey];
    try destruct sx; try destruct sy; try reflexivity;
    cbn [SFcompare option_map]; f_equal;
    rewrite (Z.compare_antisym ex ey);
    destruct (ex ?= ey); cbn [CompOpp]; try reflexivity;
    rewrite (Pos.compare_cont_antisym mx my Eq); reflexivity.
Qed.

(** The order of [SpecFloat] on numbers that are not negative. *)
Lemma SFleb_trans x y z :
  SFnonneg x = true -> SFnonneg y = true -> SFnonneg z = true ->
  SFleb x y = true -> SFleb y z = true -> SFleb x z = true.
Proof.
  destruct x as [sx|[]| |[] mx ex]; try discriminate;
  destruct y as [sy|[]| |[] my ey]; try discriminate;
  destruct z as [sz|[]| |[] mz ez]; try discriminate;
  intros _ _ _; try reflexivity; try discriminate.
  unfold SFleb, SFcompare. rewrite !Pos.compare_cont_spec. cbn [Pos.switch_Eq].
  destruct (Z.compare_spec ex ey), (Z.compare_spec ey ez), (Z.compare_spec ex ez);
    try discriminate; try reflexivity; try lia; subst;
    destruct (Pos.compare_spec mx my), (Pos.compare_spec my mz), (Pos.compare_spec mx mz);
    try discriminate; try reflexivity; lia.
Qed.

End Order.

Section OrderPrim.
Local Open Scope float_scope.

Lemma float_leb_nonneg_r x y : (0 <=? x) = true -> (x <=? y) = true -> (0 <=? y) = true.
Proof.
  rewrite !leb_zero, leb_spec.
  destruct (Prim2SF x) as [?|[]| |[] ? ?], (Prim2SF y) as [?|[]| |[] ? ?];
    try discriminate; reflexivity.
Qed.

Lemma float_leb_trans x y z :
  (0 <=? x) = true -> (x <=? y) = true -> (y <=? z) = true -> (x <=? z) = true.
Proof.
  intros Hx Hxy Hyz.
  pose proof (float_leb_nonneg_r _ _ Hx Hxy) as Hy.
  pose proof (float_leb_nonneg_r _ _ Hy Hyz) as Hz.
  rewrite leb_zero in Hx, Hy, Hz. rewrite leb_spec in *.
  now apply SFleb_trans with (Prim2SF y).
Qed.

(** Two numbers that are not [NaN] are comparable. *)
Lemma float_leb_total x y :
  (0 <=? x) = true -> (0 <=? y) = true -> (x <=? y) = false -> (y <=? x) = true.
Proof.
  rewrite !leb_zero, !leb_spec. unfold SFleb.
  rewrite (SFcompare_antisym (Prim2SF x) (Prim2SF y)). intros Hx Hy.
  destruct (SFcompare (Prim2SF x) (Prim2SF y)) as [[]|] eqn:E; cbn; try congruence.
  exfalso. revert Hx Hy E.
  destruct (Prim2SF x) as [?|[]| |[] ? ?], (Prim2SF y) as [?|[]| |[] ? ?];
    discriminate.
Qed.

Lemma float_ltb_not_leb x y : (x <? y) = true -> (y <=? x) = false.
Proof.
  rewrite ltb_spec, leb_spec. unfold SFltb, SFleb.
  rewrite (SFcompare_antisym (Prim2SF x) (Prim2SF y)).
  destruct (SFcompare _ _) as [[]|]; cbn; congruence.
Qed.

Lemma float_ltb_leb x y : (x <? y) = true -> (x <=? y) = true.
Proof.
  rewrite ltb_spec, leb_spec. unfold SFltb, SFleb.
  destruct (SFcompare _ _) as [[]|]; congruence.
Qed.

(** A positive number is truthy. *)
Lemma positive_truthy t : (0 <? t) = true -> falsy t = false.
Proof.
  intros H. unfold falsy, is_nan. rewrite !eqb_spec. rewrite ltb_zero in H.
  change (Prim2SF 0) with (S754_zero false).
  destruct (Prim2SF t) as [?|[]| |[] m e]; try discriminate; try reflexivity.
  unfold SFeqb, SFcompare. now rewrite Z.compare_refl, Pos.compare_cont_refl.
Qed.

(** A truthy number that is not negative is positive. *)
Lemma truthy_nonneg_positive t :
  falsy t = false -> (0 <=? t) = true -> (0 <? t) = true.
Proof.
  unfold falsy. rewrite leb_zero, ltb_zero, eqb_spec.
  change (Prim2SF 0) with (S754_zero false).
  destruct (Prim2SF t) as [?|[]| |[] m e]; try discriminate; reflexivity.
Qed.

End OrderPrim.

(** ** Shares of the duration *)

Section Finite.
Local Open Scope Z_scope.

(** Below the overflow threshold the rounding of a surviving mantissa is a
    positive finite number. *)
Lemma binary_round_aux_finite m e l e1 :
  0 <= m -> e1 = e + Z.max 0 (fexp64 (Zdigits2 m + e) - e) ->
  1 <= m / 2 ^ (e1 - e) -> e1 + 1 <= 971 ->
  exists p e2, binary_round_aux prec emax false m e l = S754_finite false p e2.
Proof.
  intros Hm He1 Hm1 Hmax.
  destruct (binary_round_aux_spec m e l e1 _ Hm He1 eq_refl)
    as (m2 & e2 & m3 & Hm2 & He2 & Hm3 & H0 & ->).
  destruct (first_shift_bound m e e1 Hm He1) as [Hb Hmin].
  destruct (second_shift_positive m2 e1 e2 m3 ltac:(lia) Hmin He2 Hm3) as (P & Q & R).
  assert (Zdigits2 m2 <= 54) by (apply Zdigits2_le; lia).
  pose proof (Zdigits2_nonneg m2 ltac:(lia)).
  rewrite fexp64_eq in He2.
  destruct m3 as [|p|p]; try lia.
  destruct (Z.leb_spec e2 (emax - prec)) as [|Hgt]; [eauto|].
  change (emax - prec) with 971 in Hgt. lia.
Qed.

(** The quotient of two positive integers below [2^63] is a positive finite
    number. *)
Lemma SFdiv_finite mx ex my ey :
  Zdigits2 (Zpos mx) <= 53 -> Zdigits2 (Zpos my) <= 53 ->
  -52 <= ex <= 11 -> -52 <= ey <= 11 ->
  exists p e, SF64div (S754_finite false mx ex) (S754_finite false my ey)
              = S754_finite false p e.
Proof.
  intros Hdx Hdy Hex Hey.
  pose proof (Zdigits2_pos (Zpos mx) ltac:(lia)) as Hx1.
  pose proof (Zdigits2_pos (Zpos my) ltac:(lia)) as Hy1.
  pose proof (Zdigits2_bounds (Zpos mx) ltac:(lia)) as [Bx Bx'].
  pose proof (Zdigits2_bounds (Zpos my) ltac:(lia)) as [By' By].
  unfold SF64div, SFdiv, SFdiv_core_binary. cbn [xorb]. fold fexp64.
  rewrite fexp64_eq.
  set (d1 := Zdigits2 (Zpos mx)) in *. set (d2 := Zdigits2 (Zpos my)) in *.
  replace (Z.min (Z.max (d1 + ex - (d2 + ey) - 53) (-1074)) (ex - ey))
    with (d1 + ex - (d2 + ey) - 53) by lia.
  replace (ex - ey - (d1 + ex - (d2 + ey) - 53)) with (53 + d2 - d1) by lia.
  destruct (53 + d2 - d1) as [|s|s] eqn:Es; try lia.
  rewrite Z.shiftl_mul_pow2 by lia.
  destruct (Z.div_eucl (Zpos mx * 2 ^ Zpos s) (Zpos my)) as [q r] eqn:Eq.
  assert (Hq : q = Zpos mx * 2 ^ Zpos s / Zpos my) by (unfold Z.div; now rewrite Eq).
  assert (H2s : 0 < 2 ^ Zpos s) by pow2_pos.
  assert (Hq1 : 1 <= q).
  { rewrite Hq. apply Z.div_le_lower_bound; [lia|].
    assert (2 ^ d2 <= 2 ^ (d1 - 1) * 2 ^ Zpos s).
    { rewrite <- Z.pow_add_r by lia. apply Z.pow_le_mono_r; lia. }
    nia. }
  assert (Hq2 : q < 2 ^ 54).
  { rewrite Hq. apply Z.div_lt_upper_bound; [lia|].
    assert (2 ^ d1 * 2 ^ Zpos s = 2 ^ (d2 - 1) * 2 ^ 54).
    { rewrite <- !Z.pow_add_r by lia. f_equal. lia. }
    nia. }
  pose proof (Zdigits2_pos q ltac:(lia)) as Hdq.
  assert (Hdq' : Zdigits2 q <= 54) by (apply Zdigits2_le; lia).
  apply binary_round_aux_finite with
    (e1 := d1 + ex - (d2 + ey) - 53
           + Z.max 0 (fexp64 (Zdigits2 q + (d1 + ex - (d2 + ey) - 53))
                      - (d1 + ex - (d2 + ey) - 53))).
  - lia.
  - reflexivity.
  - apply shr_positive; [lia|]. rewrite fexp64_eq. lia.
  - rewrite fexp64_eq. lia.
Qed.

End Finite.

Section Shares.
Local Open Scope float_scope.

Lemma quotient_finite a b :
  (0 < a < 2 ^ 63)%Z -> (0 < b < 2 ^ 63)%Z ->
  exists p e, Prim2SF (number_of_Z a / number_of_Z b) = S754_finite false p e.
Proof.
  intros Ha Hb. rewrite div_spec.
  destruct (number_positive a Ha) as (pa & ea & -> & Hda & Hea).
  destruct (number_positive b Hb) as (pb & eb & -> & Hdb & Heb).
  now apply SFdiv_finite.
Qed.

Lemma eqb_zero D : (D =? 0) = true -> exists s, Prim2SF D = S754_zero s.
Proof.
  rewrite eqb_spec. change (Prim2SF 0) with (S754_zero false).
  destruct (Prim2SF D) as [s|[]| |[] m e]; try discriminate. eauto.
Qed.

(** With a zero duration a share is a zero, and adding it to [0] gives
    [0]. *)
Lemma zero_share a b D :
  (0 < a < 2 ^ 63)%Z -> (0 < b < 2 ^ 63)%Z -> (D =? 0) = true ->
  0 + number_of_Z a / number_of_Z b * D = 0.
Proof.
  intros Ha Hb HD. apply Prim2SF_inj. rewrite add_spec, mul_spec.
  destruct (quotient_finite a b Ha Hb) as (p & e & ->).
  destruct (eqb_zero D HD) as (s & ->).
  change (Prim2SF 0) with (S754_zero false). now destruct s.
Qed.

End Shares.

(** ** Looking up a chained timeline *)

Section TimelineLookup.
Local Open Scope float_scope.

Lemma createSmartSubtitles_chained fullText totalDuration :
  cleanText fullText <> [] ->
  (Z.of_nat (length fullText) < 2 ^ 53)%Z ->
  (0 <? totalDuration) = true ->
  chained 0 (createSmartSubtitles fullText totalDuration).
Proof.
  intros Hne Hlen Hd.
  pose proof (length_cleanText fullText) as Hcl.
  assert (Hpos : (0 < length (cleanText fullText))%nat)
    by (destruct (cleanText fullText); [congruence | cbn; lia]).
  apply assign_times_chained; [lia | exact Hd | | reflexivity].
  apply Forall_forall. intros c Hc. now apply chunk_lengths.
Qed.

Lemma segment_text_nonempty fullText totalDuration seg :
  cleanText fullText <> [] ->
  In seg (createSmartSubtitles fullText totalDuration) -> text seg <> [].
Proof.
  intros Hne Hin. apply (in_map text) in Hin.
  rewrite texts_createSmartSubtitles in Hin.
  destruct (chunk_lengths fullText (text seg) Hne Hin) as [H _].
  destruct (text seg); [cbn in H; lia | discriminate].
Qed.

Lemma chained_end_nonneg t0 segments seg :
  chained t0 segments -> In seg segments -> (0 <=? end_ seg) = true.
Proof.
  intros H Hin. destruct (chained_nonneg _ _ H seg Hin) as [A B].
  now apply float_leb_nonneg_r with (start seg).
Qed.

(** In a timeline that has started by [t], the lookup finds the first
    segment that has not ended before [t]. *)
Lemma chained_find_first t before seg after : forall t0,
  chained t0 (before ++ seg :: after) -> (t0 <=? t) = true ->
  Forall (fun s => (t <=? end_ s) = false) before ->
  (t <=? end_ seg) = true ->
  find (active t) (before ++ seg :: after) = Some seg.
Proof.
  induction before as [|b before IH]; intros t0 Hch Ht0 Hb Hseg; cbn [app find].
  - destruct Hch as (Hs & _). unfold active, geb. now rewrite Hs, Ht0, Hseg.
  - inversion Hb as [|? ? Hb1 Hb']; subst.
    pose proof (chained_end_nonneg _ _ b Hch (or_introl eq_refl)) as Hbe.
    destruct Hch as (Hs & H0 & Hle & Hrest). cbn [app] in *.
    unfold active at 1. rewrite Hb1, andb_false_r.
    apply (IH (end_ b)); try assumption.
    apply float_leb_total; try assumption.
    apply float_leb_nonneg_r with (start b); [exact H0 | now rewrite Hs].
Qed.

Lemma first_unfinished t (segments : list SubtitleSegment) :
  (exists seg, In seg segments /\ (t <=? end_ seg) = true) ->
  exists before seg after,
    segments = before ++ seg :: after /\
    Forall (fun s => (t <=? end_ s) = false) before /\
    (t <=? end_ seg) = true.
Proof.
  induction segments as [|s r IH]; intros (seg & Hin & Hseg); [destruct Hin|].
  destruct (t <=? end_ s) eqn:E.
  - exists [], s, r. repeat split; [constructor | exact E].
  - destruct Hin as [->|Hin]; [congruence|].
    destruct IH as (before & seg' & after & -> & Hb & Hs'); [eauto|].
    exists (s :: before), seg', after. repeat split; [|exact Hs'].
    now constructor.
Qed.

Lemma last_end_cons s r : r <> [] -> last_end (s :: r) = last_end r.
Proof.
  destruct r as [|s' r]; [congruence|]. intros _. unfold last_end.
  cbn [length Nat.sub]. rewrite ?Nat.sub_0_r. reflexivity.
Qed.

Lemma last_end_In segments e :
  last_end segments = Some e -> exists seg, In seg segments /\ end_ seg = e.
Proof.
  unfold last_end. destruct (nth_error _ _) as [seg|] eqn:E; [|discriminate].
  intros [= <-]. exists seg. split; [|reflexivity]. eapply nth_error_In, E.
Qed.

(** No segment of a timeline ends after the last one. *)
Lemma chained_ends_le segments : forall t0 e,
  chained t0 segments -> last_end segments = Some e ->
  Forall (fun seg => (end_ seg <=? e) = true) segments.
Proof.
  induction segments as [|s r IH]; intros t0 e Hch He; [constructor|].
  pose proof (chained_end_nonneg _ _ s Hch (or_introl eq_refl)) as Hse.
  destruct Hch as (Hs & H0 & Hle & Hrest).
  destruct r as [|s' r].
  - unfold last_end in He. cbn in He. injection He as <-.
    constructor; [|constructor].
    destruct (end_ s <=? end_ s) eqn:E; [reflexivity|].
    pose proof (float_leb_total _ _ Hse Hse E). congruence.
  - rewrite last_end_cons in He by discriminate.
    pose proof (IH _ _ Hrest He) as Hr. constructor; [|exact Hr].
    inversion Hr as [|? ? Hs' _]; subst.
    destruct Hrest as (Hs1 & _ & Hle1 & _).
    apply float_leb_trans with (end_ s'); try assumption.
    rewrite <- Hs1. exact Hle1.
Qed.
End TimelineLookup.

(** ** Captions during playback *)

Section Playback.
Local Open Scope float_scope.

(** X6: on the segmenter's timeline the caption at a time [t > 0] is the
    first segment that has not ended before [t]; where two segments meet,
    the earlier one is shown. *)
Theorem caption_is_first_unfinished
    fullText totalDuration sequence audioUrl t before seg after :
  cleanText fullText <> [] ->
  (Z.of_nat (length fullText) < 2 ^ 53)%Z ->
  (0 <? totalDuration) = true ->
  (0 <? t) = true ->
  createSmartSubtitles fullText totalDuration = before ++ seg :: after ->
  Forall (fun s => (t <=? end_ s) = false) before ->
  (t <=? end_ seg) = true ->
  getCurrentSubtitle
    (Some (mkVideoData sequence audioUrl (createSmartSubtitles fullText totalDuration))) t
  = text seg.
Proof.
  intros Hne Hlen Hd Ht Hsegs Hb Hseg.
  pose proof (createSmartSubtitles_chained _ _ Hne Hlen Hd) as Hch.
  unfold getCurrentSubtitle. cbn [subtitles].
  rewrite (positive_truthy _ Ht), Hsegs. rewrite Hsegs in Hch.
  rewrite (chained_find_first t before seg after 0 Hch); auto.
  now apply float_ltb_leb.
Qed.

Lemma caption_is_first_unfinished_witness :
  getCurrentSubtitle
    (Some (mkVideoData [] [] (createSmartSubtitles (of_string "a b. c d.") 9))) 4
  = text (mkSegment (of_string "a b.") 0 4).
Proof.
  apply (caption_is_first_unfinished (of_string "a b. c d.") 9 [] [] 4
           [] (mkSegment (of_string "a b.") 0 4) [mkSegment (of_string "c d.") 4 8]);
    try reflexivity; [vm_compute; discriminate | constructor].
Defined.

(** X7: with a non-empty text and a positive duration a caption is on screen
    exactly at the times [0 < t <= e], where [e] is the end of the last
    segment: not at [0], not after [e], and with no gap in between. *)
Theorem captions_shown_exactly fullText totalDuration sequence audioUrl t e :
  cleanText fullText <> [] ->
  (Z.of_nat (length fullText) < 2 ^ 53)%Z ->
  (0 <? totalDuration) = true ->
  last_end (createSmartSubtitles fullText totalDuration) = Some e ->
  (getCurrentSubtitle
     (Some (mkVideoData sequence audioUrl (createSmartSubtitles fullText totalDuration))) t
   <> [] <-> (0 <? t) = true /\ (t <=? e) = true).
Proof.
  intros Hne Hlen Hd He.
  pose proof (createSmartSubtitles_chained _ _ Hne Hlen Hd) as Hch.
  pose proof (chained_ends_le _ _ _ Hch He) as Hends. rewrite Forall_forall in Hends.
  split.
  - unfold getCurrentSubtitle. cbn [subtitles].
    destruct (falsy t) eqn:Hf; [congruence|].
    destruct (find _ _) as [seg|] eqn:Hfind; [intros _ | congruence].
    apply find_some in Hfind. destruct Hfind as [Hin Hact].
    unfold active, geb in Hact. apply andb_prop in Hact. destruct Hact as [Hst Hen].
    destruct (chained_nonneg _ _ Hch seg Hin) as [H0 _].
    assert (H0t : (0 <=? t) = true) by now apply float_leb_nonneg_r with (start seg).
    split; [now apply truthy_nonneg_positive|].
    apply float_leb_trans with (end_ seg); auto.
  - intros [Ht Hte].
    destruct (last_end_In _ _ He) as (lst & Hlst & Hle).
    destruct (first_unfinished t (createSmartSubtitles fullText totalDuration))
      as (before & seg & after & Hsegs & Hb & Hseg).
    { exists lst. split; [exact Hlst | now rewrite Hle]. }
    unfold getCurrentSubtitle. cbn [subtitles]. rewrite (positive_truthy _ Ht).
    pose proof Hch as Hch'. rewrite Hsegs in Hch'.
    rewrite Hsegs at 1.
    rewrite (chained_find_first t before seg after 0 Hch'); auto using float_ltb_leb.
    apply segment_text_nonempty with fullText totalDuration; [exact Hne|].
    rewrite Hsegs. apply in_elt.
Qed.

Lemma captions_shown_exactly_witness :
  getCurrentSubtitle
    (Some (mkVideoData [] [] (createSmartSubtitles (of_string "a b. c d.") 9))) 8
  <> [] <-> (0 <? 8) = true /\ (8 <=? 8) = true.
Proof.
  apply captions_shown_exactly; try reflexivity. vm_compute. discriminate.
Defined.

Lemma zero_window_inactive t seg :
  falsy t = false -> start seg = 0 -> end_ seg = 0 -> active t seg = false.
Proof.
  unfold falsy, active, geb. intros Hf -> ->. revert Hf.
  rewrite !leb_spec, eqb_spec. unfold is_nan. rewrite eqb_spec.
  change (Prim2SF 0) with (S754_zero false).
  destruct (Prim2SF t) as [?|[]| |[] m e]; try discriminate; try reflexivity.
Qed.

Lemma assign_times_zero totalChars totalDuration cs :
  (0 < Z.of_nat totalChars < 2 ^ 63)%Z ->
  (totalDuration =? 0) = true ->
  Forall (fun c => (1 <= length c <= totalChars)%nat) cs ->
  assign_times totalChars totalDuration 0 cs = map (fun c => mkSegment c 0 0) cs.
Proof.
  intros HT HD. induction 1 as [|c cs Hc _ IH]; [reflexivity|].
  cbn [assign_times map]. unfold number_of_nat.
  rewrite (zero_share (Z.of_nat (length c)) (Z.of_nat totalChars) totalDuration)
    by (assumption || lia).
  now rewrite IH.
Qed.

(** X8: with a non-empty text and a zero duration every segment is the
    window from 0 to 0, and the lookup then shows no caption at any time. *)
Theorem zero_duration_no_caption fullText totalDuration sequence audioUrl :
  cleanText fullText <> [] ->
  (Z.of_nat (length fullText) < 2 ^ 53)%Z ->
  (totalDuration =? 0) = true ->
  let segments := createSmartSubtitles fullText totalDuration in
  Forall (fun seg => start seg = 0 /\ end_ seg = 0) segments /\
  forall t, getCurrentSubtitle (Some (mkVideoData sequence audioUrl segments)) t = [].
Proof.
  intros Hne Hlen HD segments.
  pose proof (length_cleanText fullText) as Hcl.
  assert (Hpos : (0 < length (cleanText fullText))%nat)
    by (destruct (cleanText fullText); [congruence | cbn; lia]).
  assert (Hz : Forall (fun seg => start seg = 0 /\ end_ seg = 0) segments).
  { unfold segments, createSmartSubtitles. rewrite assign_times_zero.
    - apply Forall_map. apply Forall_forall. now split.
    - lia.
    - exact HD.
    - apply Forall_forall. intros c Hc. now apply chunk_lengths. }
  split; [exact Hz|]. intros t. unfold getCurrentSubtitle. cbn [subtitles].
  destruct (falsy t) eqn:Hf; [reflexivity|].
  destruct (find _ _) as [seg|] eqn:Hfind; [|reflexivity].
  apply find_some in Hfind. destruct Hfind as [Hin Hact].
  rewrite Forall_forall in Hz. destruct (Hz seg Hin) as [Hs He].
  rewrite (zero_window_inactive t seg Hf Hs He) in Hact. discriminate.
Qed.

Lemma zero_duration_no_caption_witness :
  let segments := createSmartSubtitles (of_string "a b. c d.") 0 in
  Forall (fun seg => start seg = 0 /\ end_ seg = 0) segments /\
  forall t, getCurrentSubtitle (Some (mkVideoData [] [] segments)) t = [].
Proof.
  apply zero_duration_no_caption; try reflexivity. vm_compute. discriminate.
Defined.

(** X9: a non-empty payload has a positive, finite duration, so the
    segmenter is called with a positive duration whenever samples came
    back. *)
Theorem duration_positive_finite sampleByteLength :
  (0 < sampleByteLength < 2 ^ 63)%Z ->
  (0 <? audioDurationSeconds sampleByteLength) = true /\
  (audioDurationSeconds sampleByteLength <? infinity) = true.
Proof.
  intros Hn. unfold audioDurationSeconds.
  change 48000 with (number_of_Z 48000).
  destruct (quotient_finite sampleByteLength 48000 Hn ltac:(lia)) as (p & e & H).
  rewrite ltb_zero, ltb_spec, H. split; reflexivity.
Qed.

Lemma duration_positive_finite_witness :
  (0 <? audioDurationSeconds 12345) = true /\
  (audioDurationSeconds 12345 <? infinity) = true.
Proof. apply duration_positive_finite. lia. Defined.

End Playback.

(** ** Writing the header and assembling the file *)

Section WriteString.

Lemma write_bytes_nil offset buf : offset <= length buf -> write_bytes offset [] buf = Some buf.
Proof.
  intros H. unfold write_bytes. cbn [length]. rewrite Nat.add_0_r.
  apply Nat.leb_le in H. rewrite H. cbn [app]. now rewrite firstn_skipn.
Qed.

Lemma writeString_in_range s : forall offset buf,
  offset + length s <= length buf ->
  writeString offset s buf
  = Some (firstn offset buf ++ low_bytes s ++ skipn (offset + length s) buf).
Proof.
  induction s as [|c s IH]; intros offset buf H.
  - cbn. rewrite Nat.add_0_r. now rewrite firstn_skipn.
  - cbn [writeString length low_bytes map] in *. unfold DataView.seq, setUint8, write_bytes.
    change (le_split 1 (Z.of_N c)) with [byte.of_Z (Z.of_N c)]. cbn [length].
    assert (L : (offset + 1 <=? length buf) = true) by (apply Nat.leb_le; lia).
    rewrite L. rewrite IH.
    + f_equal.
      assert (Hf : length (firstn offset buf) = offset) by (apply firstn_length_le; lia).
      rewrite firstn_app, firstn_firstn, Hf.
      replace (Nat.min (S offset) offset) with offset by lia.
      replace (S offset - offset) with 1 by lia. cbn [firstn app].
      rewrite <- app_assoc. cbn [app]. f_equal. f_equal. f_equal.
      rewrite skipn_app, Hf.
      rewrite (skipn_all2 (n := S offset + length s)) by (rewrite Hf; lia).
      replace (S offset + length s - offset) with (S (length s)) by lia.
      cbn [app skipn]. rewrite skipn_skipn. f_equal. lia.
    + rewrite !length_app, length_firstn, length_skipn. cbn [length]. lia.
Qed.

Lemma writeString_out_of_range s : forall offset buf,
  s <> [] -> length buf < offset + length s -> writeString offset s buf = None.
Proof.
  induction s as [|c s IH]; intros offset buf Hne H; [congruence|].
  cbn [writeString length] in *. unfold DataView.seq, setUint8, write_bytes.
  change (le_split 1 (Z.of_N c)) with [byte.of_Z (Z.of_N c)]. cbn [length].
  destruct (offset + 1 <=? length buf) eqn:L; [|reflexivity].
  apply Nat.leb_le in L. destruct s as [|c' s]; [cbn in H; lia|].
  apply IH; [discriminate|].
  rewrite !length_app, length_firstn, length_skipn. cbn [length] in *. lia.
Qed.

(** X10: [writeString] stores the low byte of each code unit of the string
    from [offset] on, in order, and changes no other byte; a non-empty
    string that does not fit makes it throw, and the empty string never
    does. *)
Theorem writeString_writes offset s buf :
  writeString offset s buf
  = match s with
    | [] => Some buf
    | _ :: _ =>
        if offset + length s <=? length buf
        then Some (firstn offset buf ++ low_bytes s ++ skipn (offset + length s) buf)
        else None
    end.
Proof.
  destruct s as [|c s]; [reflexivity|].
  destruct (offset + length (c :: s) <=? length buf) eqn:L.
  - apply writeString_in_range. now apply Nat.leb_le.
  - apply writeString_out_of_range; [discriminate|]. apply Nat.leb_gt in L. lia.
Qed.

End WriteString.


Section HeaderFields.
Local Open Scope Z_scope.

Lemma le_combine_split_2 z : le_combine (le_split 2 z) = z mod 2 ^ 16.
Proof. apply le_combine_split. Qed.

(** X11: whatever the arguments, [createWavHeader] does not throw and gives
    44 bytes that carry the four chunk tags, the format chunk length 16 and
    the sample format 1 (PCM). *)
Theorem wav_header_constants dataLength sampleRate numChannels bitsPerSample :
  exists header,
    createWavHeader dataLength sampleRate numChannels bitsPerSample = Some header /\
    length header = 44%nat /\
    read_bytes 0 4 header = Some (low_bytes (of_string "RIFF")) /\
    read_bytes 8 4 header = Some (low_bytes (of_string "WAVE")) /\
    read_bytes 12 4 header = Some (low_bytes (of_string "fmt ")) /\
    read_bytes 36 4 header = Some (low_bytes (of_string "data")) /\
    getUint32 16 true header = Some 16 /\
    getUint16 20 true header = Some 1.
Proof.
  eexists. split; [apply createWavHeader_layout|].
  split; [reflexivity|].
  split; [|split; [|split; [|split; [|split]]]].
  - change (read_bytes 0 4 _) with (Some (map byte.of_Z [82; 73; 70; 70])). reflexivity.
  - change (read_bytes 8 4 _) with (Some (map byte.of_Z [87; 65; 86; 69])). reflexivity.
  - change (read_bytes 12 4 _) with (Some (map byte.of_Z [102; 109; 116; 32])). reflexivity.
  - change (read_bytes 36 4 _) with (Some (map byte.of_Z [100; 97; 116; 97])). reflexivity.
  - change (getUint32 16 true _) with (Some (le_combine (le_split 4 16))). reflexivity.
  - change (getUint16 20 true _) with (Some (le_combine (le_split 2 1))). reflexivity.
Qed.

Lemma createWavHeader_format dataLength sampleRate numChannels bitsPerSample :
  exists header,
    createWavHeader dataLength sampleRate numChannels bitsPerSample = Some header /\
    getUint16 22 true header = Some (truncate numChannels mod 2 ^ 16) /\
    getUint32 24 true header = Some (truncate sampleRate mod 2 ^ 32) /\
    getUint16 32 true header
      = Some (truncate (numChannels * (bitsPerSample / 8))%float mod 2 ^ 16) /\
    getUint16 34 true header = Some (truncate bitsPerSample mod 2 ^ 16).
Proof.
  eexists. split; [apply createWavHeader_layout|].
  split; [|split; [|split]].
  - change (getUint16 22 true _) with (Some (le_combine (le_split 2 (truncate numChannels)))).
    now rewrite le_combine_split_2.
  - change (getUint32 24 true _) with (Some (le_combine (le_split 4 (truncate sampleRate)))).
    now rewrite le_combine_split_4.
  - change (getUint16 32 true _) with
      (Some (le_combine (le_split 2 (truncate (numChannels * (bitsPerSample / 8))%float)))).
    now rewrite le_combine_split_2.
  - change (getUint16 34 true _) with (Some (le_combine (le_split 2 (truncate bitsPerSample)))).
    now rewrite le_combine_split_2.
Qed.

(** X12: the format fields are the arguments, each truncated to an integer
    and wrapped to the width of its field; with the defaults of
    [generateClip] they read 1 channel, 24000 Hz, block align 2 and 16 bits,
    for every data length. *)
Theorem wav_header_format dataLength sampleRate numChannels bitsPerSample :
  exists header default,
    createWavHeader dataLength sampleRate numChannels bitsPerSample = Some header /\
    getUint16 22 true header = Some (truncate numChannels mod 2 ^ 16) /\
    getUint32 24 true header = Some (truncate sampleRate mod 2 ^ 32) /\
    getUint16 32 true header
      = Some (truncate (numChannels * (bitsPerSample / 8))%float mod 2 ^ 16) /\
    getUint16 34 true header = Some (truncate bitsPerSample mod 2 ^ 16) /\
    createWavHeader_default dataLength = Some default /\
    getUint16 22 true default = Some 1 /\
    getUint32 24 true default = Some 24000 /\
    getUint16 32 true default = Some 2 /\
    getUint16 34 true default = Some 16.
Proof.
  destruct (createWavHeader_format dataLength sampleRate numChannels bitsPerSample)
    as (header & H & H22 & H24 & H32 & H34).
  destruct (createWavHeader_format dataLength 24000 1 16)
    as (default & D & D22 & D24 & D32 & D34).
  exists header, default.
  split; [exact H|]. split; [exact H22|]. split; [exact H24|].
  split; [exact H32|]. split; [exact H34|]. split; [exact D|].
  split; [rewrite D22; vm_compute; reflexivity|].
  split; [rewrite D24; vm_compute; reflexivity|].
  split; [rewrite D32; vm_compute; reflexivity|].
  rewrite D34; vm_compute; reflexivity.
Qed.

End HeaderFields.

Section Assembly.
Local Open Scope Z_scope.

Lemma createWavHeader_default_layout dataLength :
  exists fixed1 fixed2,
    length fixed1 = 4%nat /\ length fixed2 = 32%nat /\
    createWavHeader_default dataLength
    = Some (fixed1 ++ le_split 4 (truncate (36 + dataLength)%float) ++ fixed2
            ++ le_split 4 (truncate dataLength)).
Proof.
  exists (map byte.of_Z [82; 73; 70; 70]).
  exists (map byte.of_Z
    [87; 65; 86; 69; 102; 109; 116; 32; 16; 0; 0; 0; 1; 0; 1; 0; 192; 93; 0; 0;
     128; 187; 0; 0; 2; 0; 16; 0; 100; 97; 116; 97]).
  split; [reflexivity|]. split; [reflexivity|].
  unfold createWavHeader_default. rewrite createWavHeader_layout.
  do 3 f_equal.
Qed.

Lemma read_bytes_app (a b c : list byte) :
  read_bytes (length a) (length b) (a ++ b ++ c) = Some b.
Proof.
  unfold read_bytes. rewrite !length_app.
  replace (length a + length b <=? length a + (length b + length c))%nat with true
    by (symmetry; apply Nat.leb_le; lia).
  rewrite skipn_app, skipn_all, Nat.sub_diag. cbn [skipn app].
  rewrite firstn_app, firstn_all, Nat.sub_diag. cbn [firstn]. now rewrite app_nil_r.
Qed.

Lemma wavBytes_concat pcmData header :
  createWavHeader_default (number_of_nat (length pcmData)) = Some header ->
  wavBytes pcmData = Some (header ++ pcmData).
Proof.
  intros H. unfold wavBytes. rewrite H.
  unfold DataView.seq, set_bytes, write_bytes, ArrayBuffer.
  rewrite repeat_length. cbn [Nat.add firstn app].
  replace (length header <=? length header + length pcmData)%nat with true
    by (symmetry; apply Nat.leb_le; lia).
  rewrite length_app, length_skipn, repeat_length.
  replace (length header + length pcmData
           <=? length header + (length header + length pcmData - length header))%nat
    with true by (symmetry; apply Nat.leb_le; lia).
  f_equal.
  rewrite firstn_app, firstn_all, Nat.sub_diag. cbn [firstn]. rewrite app_nil_r.
  f_equal.
  rewrite skipn_all2; [apply app_nil_r|].
  rewrite length_app, length_skipn, repeat_length. lia.
Qed.

(** X13: the playable file is the 44-byte header followed by the samples,
    unchanged and in order; assembling it never throws. *)
Theorem wav_file_is_header_then_samples pcmData :
  exists header bytes,
    createWavHeader_default (number_of_nat (length pcmData)) = Some header /\
    wavBytes pcmData = Some bytes /\
    bytes = header ++ pcmData /\
    length bytes = (44 + length pcmData)%nat /\
    read_bytes 44 (length pcmData) bytes = Some pcmData.
Proof.
  destruct (createWavHeader_default_layout (number_of_nat (length pcmData)))
    as (fixed1 & fixed2 & L1 & L2 & H).
  remember (truncate (36 + number_of_nat (length pcmData))%float) as riff.
  remember (truncate (number_of_nat (length pcmData))) as data.
  eexists. eexists. split; [exact H|].
  split; [apply wavBytes_concat; exact H|].
  split; [reflexivity|].
  assert (L : length (fixed1 ++ le_split 4 riff ++ fixed2 ++ le_split 4 data) = 44%nat)
    by (rewrite !length_app, !length_le_split, L1, L2; reflexivity).
  split; [rewrite length_app, L; reflexivity|].
  rewrite <- L. pose proof (read_bytes_app
    (fixed1 ++ le_split 4 riff ++ fixed2 ++ le_split 4 data) pcmData []) as R.
  now rewrite app_nil_r in R.
Qed.

(** X14: while the RIFF length fits its 32-bit field, the value at offset 4 is
    the size of the file minus the 8 bytes before it, and the data length
    at offset 40 is the number of sample bytes that follow the header. *)
Theorem riff_length_matches_file pcmData :
  36 + Z.of_nat (length pcmData) < 2 ^ 32 ->
  exists bytes,
    wavBytes pcmData = Some bytes /\
    getUint32 4 true bytes = Some (Z.of_nat (length bytes) - 8) /\
    getUint32 40 true bytes = Some (Z.of_nat (length bytes) - 44) /\
    getUint32 40 true bytes = Some (Z.of_nat (length pcmData)).
Proof.
  intros Hsmall.
  destruct (createWavHeader_default_layout (number_of_nat (length pcmData)))
    as (fixed1 & fixed2 & L1 & L2 & H).
  unfold number_of_nat in H.
  destruct (header_lengths_exact (Z.of_nat (length pcmData)) ltac:(lia) ltac:(lia))
    as [E4 E40].
  rewrite E4, E40 in H. fold (number_of_nat (length pcmData)) in H.
  eexists. split; [apply wavBytes_concat; exact H|].
  set (n := Z.of_nat (length pcmData)) in *.
  assert (Len : Z.of_nat (length ((fixed1 ++ le_split 4 (36 + n) ++ fixed2 ++ le_split 4 n)
                                  ++ pcmData)) = n + 44)
    by (rewrite !length_app, !length_le_split, L1, L2; unfold n; lia).
  rewrite Len.
  assert (G4 : getUint32 4 true ((fixed1 ++ le_split 4 (36 + n) ++ fixed2 ++ le_split 4 n)
                                 ++ pcmData) = Some ((36 + n) mod 2 ^ 32)).
  { unfold getUint32. rewrite <- !app_assoc.
    pose proof (read_bytes_app fixed1 (le_split 4 (36 + n))
                  (fixed2 ++ le_split 4 n ++ pcmData)) as R.
    rewrite L1, length_le_split in R. rewrite R.
    cbn [option_map order]. now rewrite le_combine_split_4. }
  assert (G40 : getUint32 40 true ((fixed1 ++ le_split 4 (36 + n) ++ fixed2 ++ le_split 4 n)
                                   ++ pcmData) = Some (n mod 2 ^ 32)).
  { unfold getUint32.
    pose proof (read_bytes_app (fixed1 ++ le_split 4 (36 + n) ++ fixed2)
                  (le_split 4 n) pcmData) as R.
    rewrite !length_app, !length_le_split, L1, L2 in R. cbn [Nat.add] in R.
    rewrite <- !app_assoc in R. rewrite <- !app_assoc. rewrite R.
    cbn [option_map order]. now rewrite le_combine_split_4. }
  rewrite G4, G40.
  assert (0 <= n) by (unfold n; lia).
  rewrite !Z.mod_small by lia.
  split; [f_equal; lia|]. split; [f_equal; lia|reflexivity].
Qed.

Lemma riff_length_matches_file_witness :
  exists bytes,
    wavBytes (map byte.of_Z [1; 2; 3; 4]) = Some bytes /\
    getUint32 4 true bytes = Some (Z.of_nat (length bytes) - 8) /\
    getUint32 40 true bytes = Some (Z.of_nat (length bytes) - 44) /\
    getUint32 40 true bytes = Some 4.
Proof.
  apply (riff_length_matches_file (map byte.of_Z [1; 2; 3; 4])).
  vm_compute. reflexivity.
Defined.

End Assembly.

(** ** Clip sequencing and storyboard prompts *)

Section ClipSequence.
Local Open Scope Z_scope.

Lemma handleVideoEnded_step v i :
  let n := Z.of_nat (length (sequence v)) in
  0 <= i < n ->
  handleVideoEnded (Some v) i = (i + 1) mod n.
Proof.
  intros n H. unfold handleVideoEnded. fold n.
  destruct (i <? n - 1) eqn:E.
  - apply Z.ltb_lt in E. now rewrite Z.mod_small by lia.
  - apply Z.ltb_ge in E. replace (i + 1) with n by lia. now rewrite Z.mod_same by lia.
Qed.

(** X15: with a non-empty clip sequence, the index after [k] clips have
    ended, from clip 0, is [k] modulo the number of clips: the clips play in
    order and wrap to the first one after the last, and the index always
    names a clip of the sequence. *)
Theorem clips_cycle v k :
  sequence v <> [] ->
  let n := Z.of_nat (length (sequence v)) in
  let index := Nat.iter k (handleVideoEnded (Some v)) 0 in
  index = Z.of_nat k mod n /\ 0 <= index < n.
Proof.
  intros Hne n. cbv zeta.
  assert (Hn : 0 < n).
  { unfold n. destruct (sequence v); [congruence|cbn [length]; lia]. }
  induction k as [|k [IH R]].
  - change (Nat.iter 0 (handleVideoEnded (Some v)) 0) with 0.
    rewrite Z.mod_0_l by lia. lia.
  - rewrite Nat.iter_succ. rewrite handleVideoEnded_step by exact R. fold n.
    rewrite IH, Nat2Z.inj_succ, <- Z.add_1_r.
    rewrite Zplus_mod_idemp_l. split; [reflexivity|]. apply Z.mod_pos_bound. lia.
Qed.

Lemma clips_cycle_witness :
  let v := mkVideoData [of_string "a"; of_string "b"; of_string "c"] (of_string "w") [] in
  let index := Nat.iter 7 (handleVideoEnded (Some v)) 0 in
  index = 7 mod 3 /\ 0 <= index < 3.
Proof.
  apply (clips_cycle
    (mkVideoData [of_string "a"; of_string "b"; of_string "c"] (of_string "w") []) 7).
  discriminate.
Defined.

End ClipSequence.

Section PromptPadding.
Local Open Scope Z_scope.

Lemma pad_prompts_run fuel clipsNeeded : forall prompts,
  (Z.to_nat (clipsNeeded - Z.of_nat (length prompts)) < fuel)%nat ->
  pad_prompts fuel clipsNeeded prompts
  = Some (prompts ++ repeat (nth 0 prompts undefined)
                       (Z.to_nat (clipsNeeded - Z.of_nat (length prompts)))).
Proof.
  induction fuel as [|fuel IH]; intros prompts H; [lia|].
  cbn [pad_prompts].
  destruct (Z.of_nat (length prompts) <? clipsNeeded) eqn:E.
  - apply Z.ltb_lt in E.
    rewrite IH by (rewrite length_app; cbn [length]; lia).
    rewrite length_app. cbn [length].
    replace (Z.to_nat (clipsNeeded - Z.of_nat (length prompts)))
      with (S (Z.to_nat (clipsNeeded - Z.of_nat (length prompts + 1)))) by lia.
    cbn [repeat]. rewrite <- app_assoc. cbn [app]. do 3 f_equal.
    destruct prompts; reflexivity.
  - apply Z.ltb_ge in E.
    replace (Z.to_nat (clipsNeeded - Z.of_nat (length prompts))) with 0%nat by lia.
    cbn [repeat]. now rewrite app_nil_r.
Qed.

Lemma pad_prompts_short fuel clipsNeeded : forall prompts,
  (fuel <= Z.to_nat (clipsNeeded - Z.of_nat (length prompts)))%nat ->
  pad_prompts fuel clipsNeeded prompts = None.
Proof.
  induction fuel as [|fuel IH]; intros prompts H; [reflexivity|].
  cbn [pad_prompts].
  destruct (Z.of_nat (length prompts) <? clipsNeeded) eqn:E.
  - apply IH. rewrite length_app. cbn [length]. lia.
  - apply Z.ltb_ge in E. lia.
Qed.

(** X16: the fallback loop ends for every array and every number of clips,
    after one test more than there are prompts missing; it keeps the prompts
    it was given and appends copies of the first one until there are
    [clipsNeeded] of them, so an array that is already long enough is left
    as it is, and an empty one is filled with [undefined]. *)
Theorem prompts_padded clipsNeeded prompts extra :
  let missing := Z.to_nat (clipsNeeded - Z.of_nat (length prompts)) in
  let padded := prompts ++ repeat (nth 0 prompts undefined) missing in
  pad_prompts (S missing + extra) clipsNeeded prompts = Some padded /\
  pad_prompts missing clipsNeeded prompts = None /\
  Z.of_nat (length padded) = Z.max clipsNeeded (Z.of_nat (length prompts)) /\
  pad_prompts (S (Z.to_nat clipsNeeded) + extra) clipsNeeded []
  = Some (repeat undefined (Z.to_nat clipsNeeded)).
Proof.
  cbv zeta. split; [|split; [|split]].
  - apply pad_prompts_run. lia.
  - apply pad_prompts_short. lia.
  - rewrite length_app, repeat_length. lia.
  - rewrite pad_prompts_run by (cbn [length]; lia).
    cbn [length app nth]. now rewrite Z.sub_0_r.
Qed.

End PromptPadding.
